(** * Flash partition layout tools: [partion.py] and [analyze_flash.py]

    A shallow embedding of the partition layout calculator, of the two
    artifact emitters (partition-manager YAML and device-tree overlay)
    and of the partition-manager reader of the footprint analyzer,
    together with the properties of the layout and of the emitted text.

    Conventions of the embedding:
    - Python integers are unbounded, so they are [Z];
    - Python [str] values are [string], a character being the code
      point of its number (the programs only build ASCII text); a file
      is the text that wrote it, and what is said about reading a file
      is said for ASCII text, which every ASCII-compatible encoding of
      the locale decodes to itself and never fails to decode;
    - a raised exception is a value of [exception]; a function that may
      raise returns a [result];
    - the two files written by the emitters live in a finite map from
      file names to contents ([gmap string string]); of the console
      output only the table of [print_partition_layout] is modelled, as
      the list of the lines printed;
    - the commands run by [get_elf_size] are a function from the
      command line to what running it does. *)

From Stdlib Require Import ZArith Lia Ascii.
From stdpp Require Import base list strings gmap.

Local Open Scope Z_scope.

(** ** Python values shared by both programs *)

(** The exception classes that the program and its description name. *)
Inductive exc_class : Type :=
  | ValueError
  | OverflowError.

Record exception : Type := Exc { exc_cls : exc_class; exc_msg : string }.

Inductive result (A : Type) : Type :=
  | Ok (a : A)
  | Raise (e : exception).
Arguments Ok {A} a.
Arguments Raise {A} e.

Global Instance exc_class_eq_dec : EqDecision exc_class.
Proof. solve_decision. Defined.

(** ** Text primitives

    Rocq string literals have no escape sequences, so the three special
    characters of the templates get names. *)

Definition LF : string := String "010"%char "".
Definition TAB : string := String "009"%char "".
Definition DQUOTE : string := String "034"%char "".

(** *** Integer formatting: the format specs [x], [#x] and [#010x] *)

Definition hex_digit (d : Z) : ascii :=
  match d with
  | 0 => "0" | 1 => "1" | 2 => "2" | 3 => "3" | 4 => "4"
  | 5 => "5" | 6 => "6" | 7 => "7" | 8 => "8" | 9 => "9"
  | 10 => "a" | 11 => "b" | 12 => "c" | 13 => "d" | 14 => "e"
  | _ => "f"
  end%char.

(** Most significant digit first; [fuel] bounds the number of digits. *)
Fixpoint hex_digits_aux (fuel : nat) (n : Z) (acc : string) : string :=
  match fuel with
  | O => acc
  | S fuel' =>
      let acc' := String (hex_digit (n mod 16)) acc in
      if n / 16 =? 0 then acc' else hex_digits_aux fuel' (n / 16) acc'
  end.

(** The lowercase hexadecimal digits of a natural number [n]; one digit
    per four bits, so one unit of fuel per bit is more than enough. *)
Definition hex_digits (n : Z) : string :=
  hex_digits_aux (S (Z.to_nat (Z.log2 n))) n "".

Definition sign_of (n : Z) : string := if n <? 0 then "-" else "".

(** [format(n, 'x')] *)
Definition format_x (n : Z) : string :=
  sign_of n +:+ hex_digits (Z.abs n).

(** [format(n, '#x')] *)
Definition format_hash_x (n : Z) : string :=
  sign_of n +:+ "0x" +:+ hex_digits (Z.abs n).

Fixpoint zeros (k : nat) : string :=
  match k with
  | O => ""
  | S k' => String "0"%char (zeros k')
  end.

(** [format(n, '#010x')]: the zeros go between the [0x] prefix and the
    digits, up to a total width of ten characters; a longer number is
    never truncated. *)
Definition format_hash_010x (n : Z) : string :=
  let lead := sign_of n +:+ "0x" in
  let digits := hex_digits (Z.abs n) in
  lead +:+ zeros (10 - String.length lead - String.length digits) +:+ digits.

(** *** String methods used by the reader *)

(** [str.isspace] on one character, which is what [str.strip] and
    [str.split] remove: the ten ASCII ones, and next line (133) and
    no-break space (160) beyond ASCII. *)
Definition py_isspace (c : ascii) : bool :=
  match c with
  | "009" | "010" | "011" | "012" | "013"
  | "028" | "029" | "030" | "031" | " "
  | "133" | "160" => true
  | _ => false
  end%char.

(** [s.lstrip(chars)] and [s.rstrip(chars)] for a set of characters
    given as a predicate. *)
Fixpoint lstrip_chars (drop : ascii -> bool) (s : string) : string :=
  match s with
  | "" => ""
  | String c s' => if drop c then lstrip_chars drop s' else s
  end.

Fixpoint rstrip_chars (drop : ascii -> bool) (s : string) : string :=
  match s with
  | "" => ""
  | String c s' =>
      match rstrip_chars drop s' with
      | "" => if drop c then "" else String c ""
      | t => String c t
      end
  end.

Definition strip_chars (drop : ascii -> bool) (s : string) : string :=
  rstrip_chars drop (lstrip_chars drop s).

(** [s.strip()] *)
Definition strip (s : string) : string := strip_chars py_isspace s.

(** [s.startswith(p)] *)
Definition startswith (s p : string) : bool := String.prefix p s.

(** [c in s] for a one-character string [c]. *)
Fixpoint contains (c : ascii) (s : string) : bool :=
  match s with
  | "" => false
  | String d s' => if decide (d = c) then true else contains c s'
  end.

(** [s.split(c, 1)]: the text before and after the first [c], or
    nothing when [c] does not occur (the list then has one element). *)
Fixpoint split1 (c : ascii) (s : string) : option (string * string) :=
  match s with
  | "" => None
  | String d s' =>
      if decide (d = c) then Some ("", s')
      else match split1 c s' with
           | Some (k, v) => Some (String d k, v)
           | None => None
           end
  end.

(** The lines a file opened in text mode yields when iterated. With
    the default [newline=None] a line ends at a line feed, at a
    carriage return or at a carriage return followed by a line feed,
    and each of the three is handed over as one line feed; the last
    line may have none. *)
Fixpoint readlines (s : string) : list string :=
  match s with
  | "" => []
  | String c s' =>
      if decide (c = "010"%char) then LF :: readlines s'
      else if decide (c = "013"%char) then
        match s' with
        | String "010" s'' => LF :: readlines s''
        | _ => LF :: readlines s'
        end
      else match readlines s' with
           | [] => [String c ""]
           | l :: ls => String c l :: ls
           end
  end.

(** *** [int(s, 16)] *)

(** The value of a character as a hexadecimal digit, by its code:
    [0]-[9], [a]-[f] and [A]-[F]. *)
Definition hex_value (c : ascii) : option Z :=
  let code := Z.of_N (N_of_ascii c) in
  if (48 <=? code) && (code <=? 57) then Some (code - 48)
  else if (97 <=? code) && (code <=? 102) then Some (code - 87)
  else if (65 <=? code) && (code <=? 70) then Some (code - 55)
  else None.

(** The digit scan: a single underscore may separate two digits, the
    text has at least one digit and does not end in an underscore.
    [after_digit] tells whether the previous character was a digit. *)
Fixpoint int16_digits (after_digit : bool) (s : string) (acc : Z) : option Z :=
  match s with
  | "" => if after_digit then Some acc else None
  | String c s' =>
      if decide (c = "_"%char) then
        if after_digit then int16_digits false s' acc else None
      else
        match hex_value c with
        | Some d => int16_digits true s' (16 * acc + d)
        | None => None
        end
  end.

(** The whitespace that [int] accepts around a literal: the six
    characters of C's [isspace] and, beyond ASCII, the two that it
    first rewrites to a blank; the separators 28 to 31, which
    [str.strip] removes, are not among them. *)
Definition int_isspace (c : ascii) : bool :=
  Ascii.is_space c || bool_decide (c = "133"%char) || bool_decide (c = "160"%char).

(** [int(s, 16)], with [None] for the [ValueError] of a malformed
    literal: surrounding whitespace, an optional sign, an optional
    [0x] or [0X] prefix (which one underscore may follow), then the
    digits. *)
Definition int16 (s : string) : option Z :=
  let s := strip_chars int_isspace s in
  let '(negative, s) :=
    match s with
    | String "-" t => (true, t)
    | String "+" t => (false, t)
    | _ => (false, s)
    end in
  let s :=
    match s with
    | String "0" (String "x" t) | String "0" (String "X" t) =>
        match t with
        | String "_" t' => t'
        | _ => t
        end
    | _ => s
    end in
  match int16_digits false s 0 with
  | Some v => Some (if negative then - v else v)
  | None => None
  end.

(** *** Decimal text: [str(n)] and [int(s)] *)

Definition dec_digit (d : Z) : ascii := ascii_of_N (Z.to_N (48 + d)).

Fixpoint dec_digits_aux (fuel : nat) (n : Z) (acc : string) : string :=
  match fuel with
  | O => acc
  | S fuel' =>
      let acc' := String (dec_digit (n mod 10)) acc in
      if n / 10 =? 0 then acc' else dec_digits_aux fuel' (n / 10) acc'
  end.

Definition dec_digits (n : Z) : string :=
  dec_digits_aux (S (Z.to_nat (Z.log2 n))) n "".

(** [str(n)], which is also what [{n}] prints in an f-string. *)
Definition str_int (n : Z) : string :=
  sign_of n +:+ dec_digits (Z.abs n).

Definition dec_value (c : ascii) : option Z :=
  let code := Z.of_N (N_of_ascii c) in
  if (48 <=? code) && (code <=? 57) then Some (code - 48) else None.

(** The digit scan of [int(s)], with the same underscore rule as in
    base 16. *)
Fixpoint int10_digits (after_digit : bool) (s : string) (acc : Z) : option Z :=
  match s with
  | "" => if after_digit then Some acc else None
  | String c s' =>
      if decide (c = "_"%char) then
        if after_digit then int10_digits false s' acc else None
      else
        match dec_value c with
        | Some d => int10_digits true s' (10 * acc + d)
        | None => None
        end
  end.

(** [int(s)]: surrounding whitespace, an optional sign, then decimal
    digits; [None] for the [ValueError] of anything else. *)
Definition int10 (s : string) : option Z :=
  let s := strip_chars int_isspace s in
  let '(negative, s) :=
    match s with
    | String "-" t => (true, t)
    | String "+" t => (false, t)
    | _ => (false, s)
    end in
  match int10_digits false s 0 with
  | Some v => Some (if negative then - v else v)
  | None => None
  end.

(** *** Padding, repetition and splitting *)

Fixpoint spaces (k : nat) : string :=
  match k with
  | O => ""
  | S k' => String " "%char (spaces k')
  end.

(** [format(s, '<w')] for a string: blanks on the right up to the
    width [w], and no truncation. *)
Definition ljust (w : nat) (s : string) : string :=
  s +:+ spaces (w - String.length s).

(** [s * k] *)
Fixpoint str_repeat (s : string) (k : nat) : string :=
  match k with
  | O => ""
  | S k' => s +:+ str_repeat s k'
  end.

(** [s.split(c)] for a one-character separator: never empty. *)
Fixpoint split_on (c : ascii) (s : string) : list string :=
  match s with
  | "" => [""]
  | String d s' =>
      if decide (d = c) then "" :: split_on c s'
      else match split_on c s' with
           | w :: ws => String d w :: ws
           | [] => [String d ""]
           end
  end.

(** [s.split()]: the maximal runs of characters that are not
    whitespace. *)
Fixpoint py_split (s : string) : list string :=
  match s with
  | "" => []
  | String c s' =>
      let words := py_split s' in
      let in_word :=
        match s' with
        | String d _ => negb (py_isspace d)
        | "" => false
        end in
      if py_isspace c then words
      else match words with
           | w :: ws => if in_word then String c w :: ws else String c "" :: w :: ws
           | [] => [String c ""]
           end
  end.

(** ** [partion.py]: the layout calculator *)

Module Partion.

(** The dictionary built at lines 29-34, with its four fixed keys. *)
Record partition_info : Type := PartitionInfo {
  name : string;
  start : Z;
  end_ : Z;
  size : Z
}.

Global Instance partition_info_eq_dec : EqDecision partition_info.
Proof. solve_decision. Defined.

(** The body of the [for name, size in partitions] loop of
    [calculate_partitions], with the two local variables it updates as
    arguments. *)
Fixpoint calculate_partitions_loop (flash_size : Z) (partitions : list (string * Z))
    (current_address : Z) (partition_layout : list partition_info)
    : result (list partition_info) :=
  match partitions with
  | [] => Ok partition_layout
  | (name, size) :: rest =>
      if current_address + size >? flash_size then
        Raise (Exc ValueError ("Partition '" +:+ name +:+ "' exceeds flash size!"))
      else
        let partition_info :=
          {| name := name;
             start := current_address;
             end_ := current_address + size;
             size := size |} in
        calculate_partitions_loop flash_size rest (current_address + size)
          (partition_layout ++ [partition_info])
  end.

Definition calculate_partitions (flash_size : Z) (partitions : list (string * Z))
    : result (list partition_info) :=
  calculate_partitions_loop flash_size partitions 0 [].

(** [get_pm_static_name]: the Nordic Partition Manager names. *)
Definition name_mapping : gmap string string :=
  list_to_map
    [ ("mcuboot", "mcuboot");
      ("slot0", "mcuboot_primary");
      ("slot1", "mcuboot_secondary");
      ("scratch", "mcuboot_scratch");
      ("storage", "settings_storage") ].

Definition get_pm_static_name (partition_name : string) : string :=
  default partition_name (name_mapping !! partition_name).

(** [get_overlay_label]: the device-tree labels. *)
Definition label_mapping : gmap string string :=
  list_to_map
    [ ("mcuboot", "mcuboot");
      ("slot0", "image-0");
      ("slot1", "image-1");
      ("scratch", "image-scratch");
      ("storage", "storage") ].

Definition get_overlay_label (partition_name : string) : string :=
  default partition_name (label_mapping !! partition_name).

(** *** [update_pm_static_yml] *)

(** Lines 82-83: the text before the loop. *)
Definition pm_static_preamble : string :=
  let pm_static_content := "# Auto-generated pm_static.yml from partion.py" +:+ LF in
  let pm_static_content :=
    pm_static_content +:+ ("# Nordic Partition Manager static configuration" +:+ LF +:+ LF) in
  pm_static_content.

(** Lines 86-91: one pass of the loop over [partitions]. *)
Definition pm_static_step (pm_static_content : string) (partition : partition_info) : string :=
  let pm_name := get_pm_static_name (name partition) in
  let pm_static_content := pm_static_content +:+ (pm_name +:+ ":" +:+ LF) in
  let pm_static_content :=
    pm_static_content +:+ ("  address: " +:+ format_hash_x (start partition) +:+ LF) in
  let pm_static_content :=
    pm_static_content +:+ ("  end_address: " +:+ format_hash_x (end_ partition) +:+ LF) in
  let pm_static_content := pm_static_content +:+ ("  region: flash_primary" +:+ LF) in
  let pm_static_content :=
    pm_static_content +:+ ("  size: " +:+ format_hash_x (size partition) +:+ LF +:+ LF) in
  pm_static_content.

(** The value of [pm_static_content] when the file is written. *)
Definition pm_static_content (partitions : list partition_info) : string :=
  foldl pm_static_step pm_static_preamble partitions.

(** The file system is a map from file names to contents;
    [open(name, "w")] followed by [write] replaces the content. *)
Definition update_pm_static_yml (partitions : list partition_info)
    (fs : gmap string string) : gmap string string :=
  <["pm_static.yml" := pm_static_content partitions]> fs.

(** *** [update_app_overlay] *)

(** Lines 103-116: the text before the loop. *)
Definition overlay_preamble : string :=
  let overlay_content := "// Auto-generated app.overlay from partion.py" +:+ LF in
  let overlay_content :=
    overlay_content +:+ ("// Device tree overlay for partition configuration" +:+ LF +:+ LF) in
  let overlay_content := overlay_content +:+ ("/ {" +:+ LF) in
  let overlay_content := overlay_content +:+ (TAB +:+ "chosen {" +:+ LF) in
  let overlay_content :=
    overlay_content +:+ (TAB +:+ TAB +:+ "zephyr,code-partition = &slot0_partition;" +:+ LF) in
  let overlay_content := overlay_content +:+ (TAB +:+ "};" +:+ LF) in
  let overlay_content := overlay_content +:+ ("};" +:+ LF +:+ LF) in
  let overlay_content := overlay_content +:+ ("&flash0 {" +:+ LF) in
  let overlay_content := overlay_content +:+ (TAB +:+ "partitions {" +:+ LF) in
  let overlay_content :=
    overlay_content +:+
      (TAB +:+ TAB +:+ "compatible = " +:+ DQUOTE +:+ "fixed-partitions" +:+ DQUOTE +:+ ";" +:+ LF) in
  let overlay_content := overlay_content +:+ (TAB +:+ TAB +:+ "#address-cells = <1>;" +:+ LF) in
  let overlay_content :=
    overlay_content +:+ (TAB +:+ TAB +:+ "#size-cells = <1>;" +:+ LF +:+ LF) in
  overlay_content.

(** Lines 129-138: the property or comment added for the known names;
    nothing is added for any other name. *)
Definition overlay_annotation (partition : partition_info) : string :=
  if decide (name partition = "mcuboot") then
    TAB +:+ TAB +:+ TAB +:+ "read-only;" +:+ LF
  else if decide (name partition = "slot0") then
    TAB +:+ TAB +:+ TAB +:+ "// Primary application slot" +:+ LF
  else if decide (name partition = "slot1") then
    TAB +:+ TAB +:+ TAB +:+ "// Secondary application slot" +:+ LF
  else if decide (name partition = "scratch") then
    TAB +:+ TAB +:+ TAB +:+ "// MCUboot scratch area" +:+ LF
  else if decide (name partition = "storage") then
    TAB +:+ TAB +:+ TAB +:+ "// Settings storage" +:+ LF
  else "".

(** Line 122 *)
Definition partition_node_name (partition : partition_info) : string :=
  name partition +:+ "_partition".

(** Line 126, without the indentation: the [reg] property. *)
Definition overlay_reg (partition : partition_info) : string :=
  "reg = <" +:+ format_hash_010x (start partition) +:+ " "
    +:+ format_hash_010x (size partition) +:+ ">;".

(** Lines 121-140: one pass of the loop over [partitions]. *)
Definition overlay_step (overlay_content : string) (partition : partition_info) : string :=
  let overlay_label := get_overlay_label (name partition) in
  let overlay_content :=
    overlay_content +:+
      (TAB +:+ TAB +:+ partition_node_name partition +:+ ": partition@"
         +:+ format_x (start partition) +:+ " {" +:+ LF) in
  let overlay_content :=
    overlay_content +:+
      (TAB +:+ TAB +:+ TAB +:+ "label = " +:+ DQUOTE +:+ overlay_label +:+ DQUOTE +:+ ";" +:+ LF) in
  let overlay_content :=
    overlay_content +:+ (TAB +:+ TAB +:+ TAB +:+ overlay_reg partition +:+ LF) in
  let overlay_content := overlay_content +:+ overlay_annotation partition in
  let overlay_content := overlay_content +:+ (TAB +:+ TAB +:+ "};" +:+ LF +:+ LF) in
  overlay_content.

(** Lines 142-143: the text after the loop. *)
Definition overlay_closing : string :=
  (TAB +:+ "};" +:+ LF) +:+ ("};" +:+ LF).

(** The value of [overlay_content] when the file is written. *)
Definition overlay_content (partitions : list partition_info) : string :=
  foldl overlay_step overlay_preamble partitions +:+ overlay_closing.

Definition update_app_overlay (partitions : list partition_info)
    (fs : gmap string string) : gmap string string :=
  <["app.overlay" := overlay_content partitions]> fs.

(** *** [create_backup_files] and [main] *)

(** A file is renamed to its backup name unless that name is taken. *)
Definition create_backup_files (fs : gmap string string) : gmap string string :=
  let files_to_backup := ["pm_static.yml"; "app.overlay"] in
  foldl
    (fun fs filename =>
       match fs !! filename with
       | Some content =>
           let backup_name := filename +:+ ".backup" in
           match fs !! backup_name with
           | None => <[backup_name := content]> (delete filename fs)
           | Some _ => fs
           end
       | None => fs
       end)
    fs files_to_backup.

Definition FLASH_SIZE : Z := 1024 * 1024.
Definition mcuboot : Z := 110 * 1024.
Definition storage : Z := 76 * 1024.
Definition scratch : Z := 1 * 1024.
(** Python's [//] rounds down, as [Z.div] does. *)
Definition slot0_partition : Z := (FLASH_SIZE - mcuboot - storage - scratch) / 2.
Definition slot1_partition : Z := slot0_partition.

Definition partitions : list (string * Z) :=
  [ ("mcuboot", mcuboot);
    ("slot0", slot0_partition);
    ("slot1", slot1_partition);
    ("scratch", scratch);
    ("storage", storage) ].

(** [main] on a file system: the [ValueError] of the calculator is
    caught and reported, and both files are then left as they were after
    the backup step. *)
Definition main (fs : gmap string string) : result (gmap string string) :=
  let fs := create_backup_files fs in
  match calculate_partitions FLASH_SIZE partitions with
  | Ok layout => Ok (update_app_overlay layout (update_pm_static_yml layout fs))
  | Raise (Exc ValueError _) => Ok fs
  | Raise e => Raise e
  end.

(** *** [print_partition_layout]

    The lines handed to [print], in order. *)

Definition rule : string := str_repeat "-" 70.

(** Line 49: the row of one record. *)
Definition layout_row (partition : partition_info) : string :=
  let size_kb := size partition / 1024 in
  ljust 20 (name partition) +:+ " " +:+ format_hash_010x (start partition) +:+ "   "
    +:+ format_hash_010x (end_ partition) +:+ "   "
    +:+ format_hash_010x (size partition) +:+ "   " +:+ str_int size_kb +:+ "KB".

Definition print_partition_layout (partitions : list partition_info) (flash_size : Z)
    : list string :=
  let printed :=
    [ "Flash Size: " +:+ format_hash_x flash_size +:+ " (" +:+ str_int flash_size +:+ " bytes)";
      rule;
      ljust 20 "Partition" +:+ " " +:+ ljust 12 "Start" +:+ " " +:+ ljust 12 "End" +:+ " "
        +:+ ljust 12 "Size" +:+ " " +:+ ljust 10 "Size (KB)";
      rule ] in
  let printed := foldl (fun printed partition => printed ++ [layout_row partition])
                   printed partitions in
  let total_used := foldl (fun acc p => acc + size p) 0 partitions in
  let remaining := flash_size - total_used in
  if remaining >? 0 then
    printed ++
      [ rule;
        ljust 20 "UNUSED" +:+ " " +:+ format_hash_010x total_used +:+ "   "
          +:+ format_hash_010x flash_size +:+ "   "
          +:+ format_hash_010x remaining +:+ "   " +:+ str_int (remaining / 1024) +:+ "KB" ]
  else printed.

End Partion.

(** ** [analyze_flash.py]: the partition-manager reader *)

Module AnalyzeFlash.

(** The dictionary [partitions] keeps its keys in insertion order, so
    it is an association list; assigning to a key that is present
    replaces the value where the key stands. *)
Fixpoint dict_set {V : Type} (d : list (string * V)) (k : string) (v : V)
    : list (string * V) :=
  match d with
  | [] => [(k, v)]
  | (k', v') :: d' =>
      if decide (k' = k) then (k, v) :: d' else (k', v') :: dict_set d' k v
  end.

Fixpoint dict_get {V : Type} (d : list (string * V)) (k : string) : option V :=
  match d with
  | [] => None
  | (k', v') :: d' => if decide (k' = k) then Some v' else dict_get d' k
  end.

(** The local variables of the loop of [analyze_partition_usage]. *)
Record reader_state : Type := ReaderState {
  current_partition : option string;
  partitions : list (string * gmap string Z)
}.

(** Line 85: the name on a line that opens a partition. *)
Definition header_name (line : string) : string :=
  rstrip_chars (fun c => bool_decide (c = ":"%char)) line.

(** Lines 88-92: the key and value on a line inside a partition, for
    the three keys that are read. The outer [None] is an exception
    (no separator to unpack, or a value that is no hexadecimal
    literal); the inner one is a key that is not recorded. *)
Definition field_entry (line : string) : option (option (string * Z)) :=
  match split1 ":" line with
  | None => None
  | Some (key, value) =>
      let key := strip key in
      let value := strip value in
      if bool_decide (key ∈ ["size"; "address"; "end_address"]) then
        match int16 value with
        | Some n => Some (Some (key, n))
        | None => None
        end
      else Some None
  end.

(** Python truthiness of [current_partition]. *)
Definition truthy (o : option string) : bool :=
  match o with
  | None | Some "" => false
  | Some _ => true
  end.

(** Lines 82-92: one pass of the loop; [None] when an exception is
    raised. *)
Definition reader_step (st : reader_state) (line : string) : option reader_state :=
  let line := strip line in
  if negb (bool_decide (line = "")) && negb (startswith line "#") then
    if contains ":" line && negb (startswith line " ") then
      let current_partition := header_name line in
      Some (ReaderState (Some current_partition)
              (dict_set (partitions st) current_partition ∅))
    else if truthy (current_partition st) && contains ":" line then
      match field_entry line, current_partition st with
      | Some (Some (key, n)), Some cur =>
          match dict_get (partitions st) cur with
          | Some info => Some (ReaderState (current_partition st)
                                 (dict_set (partitions st) cur (<[key := n]> info)))
          | None => None
          end
      | Some None, _ => Some st
      | _, _ => None
      end
    else Some st
  else Some st.

Fixpoint reader_loop (st : reader_state) (lines : list string) : option reader_state :=
  match lines with
  | [] => Some st
  | line :: rest =>
      match reader_step st line with
      | Some st' => reader_loop st' rest
      | None => None
      end
  end.

(** [analyze_partition_usage]: [None] when the file is missing and
    when an exception is caught. *)
Definition analyze_partition_usage (fs : gmap string string)
    : option (list (string * gmap string Z)) :=
  match fs !! "pm_static.yml" with
  | None => None
  | Some text =>
      match reader_loop (ReaderState None []) (readlines text) with
      | Some st => Some (partitions st)
      | None => None
      end
  end.

(** The [(name, start, end, size)] view of what was read: one tuple per
    key of the dictionary, in order, with the fields that are present. *)
Definition recovered (parts : list (string * gmap string Z))
    : list (string * option Z * option Z * option Z) :=
  map (fun '(n, info) =>
         (n, info !! "address", info !! "end_address", info !! "size"))
      parts.

(** *** [get_hex_size] *)

(** Lines 59-65: one pass of the loop over the lines of the file;
    [None] when [int] raises. *)
Definition hex_size_step (total_bytes : Z) (line : string) : option Z :=
  let line := strip line in
  if startswith line ":" && (11 <=? String.length line)%nat then
    match int16 (String.substring 1 2 line) with
    | None => None
    | Some byte_count =>
        match int16 (String.substring 7 2 line) with
        | None => None
        | Some record_type =>
            if record_type =? 0 then Some (total_bytes + byte_count)
            else Some total_bytes
        end
    end
  else Some total_bytes.

Fixpoint hex_size_loop (total_bytes : Z) (lines : list string) : option Z :=
  match lines with
  | [] => Some total_bytes
  | line :: rest =>
      match hex_size_step total_bytes line with
      | Some total_bytes' => hex_size_loop total_bytes' rest
      | None => None
      end
  end.

(** [get_hex_size]: [None] when the file is missing and when an
    exception is caught. *)
Definition get_hex_size (fs : gmap string string) (hex_path : string) : option Z :=
  match fs !! hex_path with
  | None => None
  | Some text => hex_size_loop 0 (readlines text)
  end.

(** *** [get_elf_size] *)

(** What [subprocess.run(cmd, capture_output=True, text=True,
    check=True)] can do: complete with an output, raise one of the two
    exceptions that the inner handler catches, or raise another one. *)
Inductive run_outcome : Type :=
  | Completed (stdout : string)
  | CommandFailed
  | OtherFailure.

(** The dictionary returned by [get_elf_size], with its five keys. *)
Record elf_size : Type := ElfSize {
  text : Z;
  data : Z;
  bss : Z;
  flash_total : Z;
  ram_total : Z
}.

(** Lines 29-45: reading the table printed by the size tool. Both the
    [IndexError] of a short row and the [ValueError] of [int] end in
    [None], and so does an output of fewer than two lines, after which
    the function returns nothing. *)
Definition parse_size_output (stdout : string) : option elf_size :=
  let lines := split_on "010" (strip stdout) in
  if (2 <=? length lines)%nat then
    match lines !! 1%nat with
    | None => None
    | Some line =>
        let size_line := py_split line in
        match size_line !! 0%nat, size_line !! 1%nat, size_line !! 2%nat with
        | Some f0, Some f1, Some f2 =>
            match int10 f0, int10 f1, int10 f2 with
            | Some text_size, Some data_size, Some bss_size =>
                let flash_usage := text_size + data_size in
                Some {| text := text_size;
                        data := data_size;
                        bss := bss_size;
                        flash_total := flash_usage;
                        ram_total := data_size + bss_size |}
            | _, _, _ => None
            end
        | _, _, _ => None
        end
    end
  else None.

(** [get_elf_size], given the file system and the behaviour of the
    two commands. *)
Definition get_elf_size (fs : gmap string string) (run : list string -> run_outcome)
    (elf_path : string) : option elf_size :=
  match fs !! elf_path with
  | None => None
  | Some _ =>
      let size_cmd := ["arm-none-eabi-size"; elf_path] in
      match run size_cmd with
      | Completed stdout => parse_size_output stdout
      | CommandFailed =>
          let size_cmd := ["size"; elf_path] in
          match run size_cmd with
          | Completed stdout => parse_size_output stdout
          | _ => None
          end
      | OtherFailure => None
      end
  end.

End AnalyzeFlash.

(** ** Specification-level notions for the layout *)

Module Layout.
Import Partion.

(** Sum of the requested sizes, [sum(size for _, size in partitions)]. *)
Definition sum_sizes (partitions : list (string * Z)) : Z :=
  foldr (fun p acc => p.2 + acc) 0 partitions.

(** The records a cursor starting at [cur] lays out, without any check. *)
Fixpoint tile (cur : Z) (partitions : list (string * Z)) : list partition_info :=
  match partitions with
  | [] => []
  | (n, s) :: rest => PartitionInfo n cur (cur + s) s :: tile (cur + s) rest
  end.

(** The text of the strings of a list, one after the other. *)
Definition join (blocks : list string) : string :=
  foldr String.append "" blocks.

(** The lines added to [pm_static.yml] for one record. *)
Definition pm_static_lines (r : partition_info) : list string :=
  [ get_pm_static_name (name r) +:+ ":" +:+ LF;
    "  address: " +:+ format_hash_x (start r) +:+ LF;
    "  end_address: " +:+ format_hash_x (end_ r) +:+ LF;
    "  region: flash_primary" +:+ LF;
    "  size: " +:+ format_hash_x (size r) +:+ LF;
    LF ].

(** The lines added to [app.overlay] for one record, the annotation
    (a line or nothing) being its fourth element. *)
Definition overlay_node (r : partition_info) : list string :=
  [ TAB +:+ TAB +:+ partition_node_name r +:+ ": partition@"
      +:+ format_x (start r) +:+ " {" +:+ LF;
    TAB +:+ TAB +:+ TAB +:+ "label = " +:+ DQUOTE +:+ get_overlay_label (name r)
      +:+ DQUOTE +:+ ";" +:+ LF;
    TAB +:+ TAB +:+ TAB +:+ "reg = <" +:+ format_hash_010x (start r) +:+ " "
      +:+ format_hash_010x (size r) +:+ ">;" +:+ LF;
    overlay_annotation r;
    TAB +:+ TAB +:+ "};" +:+ LF;
    LF ].

(** Every character of [s] satisfies [p]. *)
Fixpoint all_chars (p : ascii -> bool) (s : string) : bool :=
  match s with
  | "" => true
  | String c s' => p c && all_chars p s'
  end.

(** A character that [int(_, 16)] reads as a digit. *)
Definition is_hex (c : ascii) : bool :=
  match hex_value c with
  | Some _ => true
  | None => false
  end.

(** A character of ASCII, and a text made of such characters: what a
    file holds when every ASCII-compatible encoding reads it the same
    way, and without a decoding error. *)
Definition is_ascii (c : ascii) : bool := (N_of_ascii c <? 128)%N.

Definition ascii_text (s : string) : Prop := all_chars is_ascii s = true.

(** A character that does not end a line of a text file. *)
Definition line_char (c : ascii) : bool :=
  negb (bool_decide (c = "010"%char)) && negb (bool_decide (c = "013"%char)).

(** A name that a line-based reader can take apart again: ASCII
    characters other than whitespace (hence no line break, no carriage
    return), the colon and the comment sign. *)
Definition plain_char (c : ascii) : bool :=
  is_ascii c && negb (py_isspace c) && negb (bool_decide (c = ":"%char))
    && negb (bool_decide (c = "#"%char)).

Definition plain_name (s : string) : Prop := all_chars plain_char s = true.

Global Instance plain_name_dec (s : string) : Decision (plain_name s).
Proof. unfold plain_name. apply _. Defined.



(** The value of two hexadecimal digits. *)
Definition hex_pair (c d : ascii) : Z :=
  16 * default 0 (hex_value c) + default 0 (hex_value d).

(** A record of an Intel HEX file as text: the two digits of the byte
    count, the four of the address, the two of the record type, and
    the data and checksum digits that follow. *)
Record ihex_record : Type := IhexRecord {
  ih_count : ascii * ascii;
  ih_address : string;
  ih_type : ascii * ascii;
  ih_rest : string
}.

Definition ihex_line (r : ihex_record) : string :=
  String ":" (String (ih_count r).1 (String (ih_count r).2
    (ih_address r +:+ String (ih_type r).1 (String (ih_type r).2 (ih_rest r +:+ LF))))).

(** Digits where digits belong, four for the address and at least the
    two of the checksum at the end. *)
Definition ihex_wf (r : ihex_record) : Prop :=
  is_hex (ih_count r).1 = true /\ is_hex (ih_count r).2 = true /\
  all_chars is_hex (ih_address r) = true /\ String.length (ih_address r) = 4%nat /\
  is_hex (ih_type r).1 = true /\ is_hex (ih_type r).2 = true /\
  all_chars is_hex (ih_rest r) = true /\ (2 <= String.length (ih_rest r))%nat.

(** The bytes that a record contributes: its count if it is a data
    record (type 0), nothing otherwise. *)
Definition ihex_data_bytes (r : ihex_record) : Z :=
  if hex_pair (ih_type r).1 (ih_type r).2 =? 0
  then hex_pair (ih_count r).1 (ih_count r).2 else 0.

(** A number or word right-aligned in a field of [w] columns, as C's
    [printf] does for [%7lu]: blanks on the left up to the width, and
    no truncation. *)
Definition rjust (w : nat) (s : string) : string :=
  spaces (w - String.length s) +:+ s.

(** The table that the size tools print in their default (Berkeley)
    format: the header, then a row with the three sizes, each
    right-aligned in a column of seven and followed by a tab, and
    further columns [more] (the total in decimal and hexadecimal)
    that end with the file name. *)
Definition size_report (text_size data_size bss_size : Z) (more filename : string)
    : string :=
  ("   text" +:+ TAB +:+ "   data" +:+ TAB +:+ "    bss" +:+ TAB +:+ "    dec" +:+ TAB
     +:+ "    hex" +:+ TAB +:+ "filename") +:+ LF +:+
  (rjust 7 (str_int text_size) +:+ TAB +:+ rjust 7 (str_int data_size) +:+ TAB
     +:+ rjust 7 (str_int bss_size) +:+ TAB +:+ more +:+ filename) +:+ LF.

End Layout.

(** * Properties *)

Import Partion Layout.

(** ** The layout calculator *)

Section Calculator.

Variable flash_size : Z.

Lemma sum_sizes_app (ps qs : list (string * Z)) :
  sum_sizes (ps ++ qs) = sum_sizes ps + sum_sizes qs.
Proof.
  unfold sum_sizes. induction ps as [|p ps IH]; simpl; [done | lia].
Qed.

(** Without an overflow the loop appends exactly the tiling. *)
Lemma calculate_partitions_loop_tile (ps : list (string * Z)) :
  forall cur acc,
    Forall (fun p => 0 <= p.2) ps ->
    cur + sum_sizes ps <= flash_size ->
    calculate_partitions_loop flash_size ps cur acc = Ok (acc ++ tile cur ps).
Proof.
  induction ps as [|[n s] ps IH]; intros cur acc Hpos Hfit; simpl.
  - by rewrite app_nil_r.
  - apply Forall_cons in Hpos as [Hs Hpos]. simpl in Hs.
    assert (0 <= sum_sizes ps) as Hsum.
    { clear -Hpos. induction Hpos as [|p ps Hp _ IH]; simpl; lia. }
    change (sum_sizes ((n, s) :: ps)) with (s + sum_sizes ps) in Hfit.
    destruct (Z.gtb_spec (cur + s) flash_size) as [Hgt|Hle]; [lia|].
    rewrite IH by (done || lia). by rewrite <- app_assoc.
Qed.

(** The loop stops at the first request that would pass the end of the
    flash, whatever was laid out before. *)
Lemma calculate_partitions_loop_overflow (ps : list (string * Z)) :
  forall cur acc,
    ps <> [] ->
    cur + sum_sizes ps > flash_size ->
    exists pre n s post,
      ps = pre ++ (n, s) :: post /\
      (forall k, (0 < k <= length pre)%nat ->
                 cur + sum_sizes (take k ps) <= flash_size) /\
      cur + sum_sizes pre + s > flash_size /\
      calculate_partitions_loop flash_size ps cur acc =
        Raise (Exc ValueError ("Partition '" +:+ n +:+ "' exceeds flash size!")).
Proof.
  induction ps as [|[n s] ps IH]; intros cur acc Hne Hsum; [done|].
  change (sum_sizes ((n, s) :: ps)) with (s + sum_sizes ps) in Hsum.
  simpl. destruct (Z.gtb_spec (cur + s) flash_size) as [Hgt|Hle].
  - exists [], n, s, ps. repeat split; simpl; [lia | lia].
  - destruct ps as [|q ps'] eqn:Eps; [simpl in Hsum; lia|]. rewrite <- Eps in *.
    destruct (IH (cur + s) (acc ++ [PartitionInfo n cur (cur + s) s]))
      as (pre & n' & s' & post & -> & Hbefore & Hover & Hraise);
      [by rewrite Eps | lia |].
    exists ((n, s) :: pre), n', s', post. repeat split; [| simpl; lia | done].
    intros [|k] Hk; [lia|]. simpl in Hk.
    change (sum_sizes (take (S k) ((n, s) :: pre ++ (n', s') :: post)))
      with (s + sum_sizes (take k (pre ++ (n', s') :: post))).
    destruct k as [|k]; [simpl; lia|].
    specialize (Hbefore (S k)). lia.
Qed.

(** Every failure of the loop is a [ValueError] about the request at
    which the cursor would pass the end of the flash. *)
Lemma calculate_partitions_loop_raise (ps : list (string * Z)) :
  forall cur acc e,
    calculate_partitions_loop flash_size ps cur acc = Raise e ->
    exists pre n s post,
      ps = pre ++ (n, s) :: post /\
      cur + sum_sizes pre + s > flash_size /\
      e = Exc ValueError ("Partition '" +:+ n +:+ "' exceeds flash size!").
Proof.
  induction ps as [|[n s] ps IH]; intros cur acc e; simpl; [done|].
  destruct (Z.gtb_spec (cur + s) flash_size) as [Hgt|Hle].
  - intros [= <-]. exists [], n, s, ps. simpl. repeat split; lia.
  - intros (pre & n' & s' & post & -> & Hover & ->)%IH.
    exists ((n, s) :: pre), n', s', post. repeat split.
    change (sum_sizes ((n, s) :: pre)) with (s + sum_sizes pre). lia.
Qed.

End Calculator.

(** *** Facts about the tiling *)

Lemma tile_requests (ps : list (string * Z)) :
  forall cur, map (fun r => (name r, size r)) (tile cur ps) = ps.
Proof.
  induction ps as [|[n s] ps IH]; intros cur; simpl; [done|]. by rewrite IH.
Qed.

Lemma tile_end (ps : list (string * Z)) :
  forall cur, Forall (fun r => end_ r = start r + size r) (tile cur ps).
Proof.
  induction ps as [|[n s] ps IH]; intros cur; simpl; constructor; auto.
Qed.

Lemma sum_sizes_nonneg (ps : list (string * Z)) :
  Forall (fun p => 0 <= p.2) ps -> 0 <= sum_sizes ps.
Proof. induction 1 as [|p ps Hp _ IH]; simpl; lia. Qed.

Lemma tile_start_ge (ps : list (string * Z)) :
  Forall (fun p => 0 <= p.2) ps ->
  forall cur r, r ∈ tile cur ps -> cur <= start r.
Proof.
  induction 1 as [|[n s] ps Hs _ IH]; intros cur r; simpl in *.
  - by intros ?%elem_of_nil.
  - intros [->|Hin]%elem_of_cons; simpl; [lia|].
    specialize (IH _ _ Hin). lia.
Qed.

Lemma tile_head (ps : list (string * Z)) (cur : Z) (r : partition_info) :
  head (tile cur ps) = Some r -> start r = cur.
Proof. destruct ps as [|[n s] ps]; simpl; [done|]. by intros [= <-]. Qed.

Lemma tile_adjacent (ps : list (string * Z)) :
  forall cur (i : nat) r r',
    tile cur ps !! i = Some r ->
    tile cur ps !! S i = Some r' ->
    start r' = end_ r.
Proof.
  induction ps as [|[n s] ps IH]; intros cur i r r'; simpl; [done|].
  destruct i as [|i]; simpl.
  - intros [= <-] Hnext. simpl. apply (tile_head ps). by rewrite head_lookup.
  - apply IH.
Qed.

Lemma tile_disjoint (ps : list (string * Z)) :
  Forall (fun p => 0 <= p.2) ps ->
  forall cur (i j : nat) ri rj,
    (i < j)%nat ->
    tile cur ps !! i = Some ri ->
    tile cur ps !! j = Some rj ->
    end_ ri <= start rj.
Proof.
  induction 1 as [|[n s] ps Hs Hps IH]; intros cur i j ri rj Hij; simpl; [done|].
  destruct j as [|j]; [lia|]. destruct i as [|i]; simpl.
  - intros [= <-] Hj. simpl.
    apply (tile_start_ge ps Hps). by eapply list_elem_of_lookup_2.
  - apply IH. lia.
Qed.

Lemma tile_last (ps : list (string * Z)) :
  forall cur r, last (tile cur ps) = Some r -> end_ r = cur + sum_sizes ps.
Proof.
  induction ps as [|[n s] ps IH]; intros cur r; simpl; [done|].
  destruct (tile (cur + s) ps) as [|r' rs] eqn:Etile.
  - intros [= <-]. destruct ps as [|[] ?]; [simpl; lia | done].
  - change (last (r' :: rs) = Some r -> end_ r = cur + (s + sum_sizes ps)).
    rewrite <- Etile. intros ->%IH. lia.
Qed.

(** *** The calculator on requests that fit *)

(** C1. When the sizes are nonnegative and sum to at most the capacity,
    [calculate_partitions] returns one record per request, in input
    order, with the request's name and size; the first record starts
    at 0, every record ends at its start plus its size, every record
    starts where the previous one ends, so that an earlier record ends
    no later than a later one starts, and the last record ends within
    the capacity. *)
Theorem calculate_partitions_tiles (capacity : Z) (requests : list (string * Z)) :
  Forall (fun p => 0 <= p.2) requests ->
  sum_sizes requests <= capacity ->
  exists records,
    calculate_partitions capacity requests = Ok records /\
    length records = length requests /\
    map (fun r => (name r, size r)) records = requests /\
    (forall r, head records = Some r -> start r = 0) /\
    Forall (fun r => end_ r = start r + size r) records /\
    (forall (i : nat) r r',
        records !! i = Some r -> records !! S i = Some r' ->
        start r' = end_ r) /\
    (forall (i j : nat) ri rj,
        (i < j)%nat -> records !! i = Some ri -> records !! j = Some rj ->
        end_ ri <= start rj) /\
    (forall r, last records = Some r -> end_ r <= capacity).
Proof.
  intros Hpos Hfit. exists (tile 0 requests).
  split; [| split; [| split; [| split; [| split; [| split; [| split]]]]]].
  - unfold calculate_partitions.
    by rewrite calculate_partitions_loop_tile.
  - rewrite <- (tile_requests requests 0) at 2. by rewrite length_map.
  - apply tile_requests.
  - apply tile_head.
  - apply tile_end.
  - apply tile_adjacent.
  - by apply tile_disjoint.
  - intros r ->%tile_last. lia.
Qed.

(** The theorem at capacity 1024 with the requests a (600) and b (400). *)
Example calculate_partitions_tiles_witness :
  exists records,
    calculate_partitions 1024 [("a", 600); ("b", 400)] = Ok records /\
    length records = length [("a", 600); ("b", 400)] /\
    map (fun r => (name r, size r)) records = [("a", 600); ("b", 400)] /\
    (forall r, head records = Some r -> start r = 0) /\
    Forall (fun r => end_ r = start r + size r) records /\
    (forall (i : nat) r r',
        records !! i = Some r -> records !! S i = Some r' ->
        start r' = end_ r) /\
    (forall (i j : nat) ri rj,
        (i < j)%nat -> records !! i = Some ri -> records !! j = Some rj ->
        end_ ri <= start rj) /\
    (forall r, last records = Some r -> end_ r <= 1024).
Proof.
  apply (calculate_partitions_tiles 1024 [("a", 600); ("b", 400)]).
  - repeat constructor; simpl; lia.
  - simpl; lia.
Defined.

(** *** The calculator on requests that do not fit *)

(** C2. For every capacity of a flash (a size, so not negative) and
    every request sequence of nonnegative sizes that sum to more than
    the capacity, [calculate_partitions] raises, returns no layout, and
    the message names the first request at which the running sum
    exceeds the capacity: the requests split into [pre], the request
    [(n, s)] and [post], up to every request of [pre] the running sum is
    within the capacity, with [(n, s)] it is above, and the error is
    the one about [n]. *)
Theorem calculate_partitions_overflow (capacity : Z) (requests : list (string * Z)) :
  0 <= capacity ->
  Forall (fun p => 0 <= p.2) requests ->
  sum_sizes requests > capacity ->
  exists pre n s post,
    requests = pre ++ (n, s) :: post /\
    (forall k, (0 < k <= length pre)%nat ->
               sum_sizes (take k requests) <= capacity) /\
    sum_sizes (pre ++ [(n, s)]) > capacity /\
    calculate_partitions capacity requests =
      Raise (Exc ValueError ("Partition '" +:+ n +:+ "' exceeds flash size!")) /\
    (forall records, calculate_partitions capacity requests <> Ok records).
Proof.
  intros Hcap _ Hsum.
  assert (requests <> []) as Hne.
  { intros ->. change (sum_sizes []) with 0 in Hsum. lia. }
  destruct (calculate_partitions_loop_overflow capacity requests 0 [] Hne)
    as (pre & n & s & post & Hsplit & Hbefore & Hover & Hraise); [lia|].
  exists pre, n, s, post. unfold calculate_partitions. rewrite Hraise.
  split; [done|]. split; [|split; [|done]].
  - intros k Hk. specialize (Hbefore k Hk). lia.
  - rewrite sum_sizes_app. simpl. lia.
Qed.

(** The theorem at capacity 1024 with the requests a (600) and b (600). *)
Example calculate_partitions_overflow_witness :
  exists pre n s post,
    [("a", 600); ("b", 600)] = pre ++ (n, s) :: post /\
    (forall k, (0 < k <= length pre)%nat ->
               sum_sizes (take k [("a", 600); ("b", 600)]) <= 1024) /\
    sum_sizes (pre ++ [(n, s)]) > 1024 /\
    calculate_partitions 1024 [("a", 600); ("b", 600)] =
      Raise (Exc ValueError ("Partition '" +:+ n +:+ "' exceeds flash size!")) /\
    (forall records,
        calculate_partitions 1024 [("a", 600); ("b", 600)] <> Ok records).
Proof.
  apply (calculate_partitions_overflow 1024 [("a", 600); ("b", 600)]).
  - lia.
  - repeat constructor; simpl; lia.
  - simpl; lia.
Defined.

(** The same holds of a non-empty sequence whatever the signs of the
    capacity and of the sizes; the sign of the capacity matters for the
    empty sequence alone, on which the loop examines nothing. *)
Lemma calculate_partitions_overflow_nonempty (capacity : Z)
    (requests : list (string * Z)) :
  requests <> [] ->
  sum_sizes requests > capacity ->
  exists n, calculate_partitions capacity requests =
              Raise (Exc ValueError ("Partition '" +:+ n +:+ "' exceeds flash size!")).
Proof.
  intros Hne Hsum.
  destruct (calculate_partitions_loop_overflow capacity requests 0 [] Hne)
    as (pre & n & s & post & _ & _ & _ & Hraise); [lia|].
  by exists n.
Qed.

(** The example of the description: the request named is ["b"]. *)
Example calculate_partitions_overflow_example :
  calculate_partitions 1024 [("a", 600); ("b", 600)] =
    Raise (Exc ValueError "Partition 'b' exceeds flash size!").
Proof. reflexivity. Qed.

(** C3, as stated, fails: the exception raised on an overflow is a
    [ValueError], not an [OverflowError], and its message holds the
    name and no amount (here 600 + 600 - 1024 = 176, decimal or hex). *)
Lemma calculate_partitions_error_is_not_overflow_error :
  calculate_partitions 1024 [("a", 600); ("b", 600)] =
    Raise (Exc ValueError "Partition 'b' exceeds flash size!") /\
  ~ (exists msg, calculate_partitions 1024 [("a", 600); ("b", 600)] =
                 Raise (Exc OverflowError msg)) /\
  String.index 0 "176" "Partition 'b' exceeds flash size!" = None /\
  String.index 0 "b0" "Partition 'b' exceeds flash size!" = None.
Proof.
  split; [reflexivity|]. split; [|split; reflexivity].
  intros [msg Hmsg]. discriminate Hmsg.
Qed.

(** C3, amended. Whenever [calculate_partitions] fails, it is on a
    request whose size takes the cursor past the capacity, the
    exception is a [ValueError], and its message is the fixed sentence
    around the name of that request. *)
Theorem calculate_partitions_error (capacity : Z) (requests : list (string * Z))
    (e : exception) :
  calculate_partitions capacity requests = Raise e ->
  exists pre n s post,
    requests = pre ++ (n, s) :: post /\
    sum_sizes pre + s > capacity /\
    exc_cls e = ValueError /\
    exc_msg e = "Partition '" +:+ n +:+ "' exceeds flash size!".
Proof.
  intros (pre & n & s & post & -> & Hover & ->)%calculate_partitions_loop_raise.
  exists pre, n, s, post. repeat split. lia.
Qed.

(** The theorem at the failure of capacity 1024 with a (600) and b (600). *)
Example calculate_partitions_error_witness :
  exists pre n s post,
    [("a", 600); ("b", 600)] = pre ++ (n, s) :: post /\
    sum_sizes pre + s > 1024 /\
    exc_cls (Exc ValueError "Partition 'b' exceeds flash size!") = ValueError /\
    exc_msg (Exc ValueError "Partition 'b' exceeds flash size!") =
      "Partition '" +:+ n +:+ "' exceeds flash size!".
Proof.
  apply (calculate_partitions_error 1024 [("a", 600); ("b", 600)]).
  reflexivity.
Defined.

(** *** The five-partition example *)

(** C4, as stated, fails: the five sizes sum to 1,051,648, which is
    3,072 more than the capacity, so no records are returned. *)
Lemma calculate_partitions_example_overflows :
  calculate_partitions 1048576
    [("mcuboot", 112640); ("slot0", 430080); ("slot1", 430080);
     ("scratch", 1024); ("storage", 77824)]
  <> Ok [ PartitionInfo "mcuboot" 0x0 0x1B800 112640;
          PartitionInfo "slot0" 0x1B800 0x87800 430080;
          PartitionInfo "slot1" 0x87800 0xF3800 430080;
          PartitionInfo "scratch" 0xF3800 0xF3C00 1024;
          PartitionInfo "storage" 0xF3C00 0x100000 77824 ].
Proof. discriminate. Qed.

(** C4, amended. With capacity 1,048,576 the five requests of the
    example, which sum to 1,051,648, make [calculate_partitions] raise
    on ["storage"]; the records listed in the example are the layout of
    the sizes 112640, 442368, 442368, 1024 and 50176, which do sum to
    the capacity. *)
Theorem calculate_partitions_example :
  sum_sizes [("mcuboot", 112640); ("slot0", 430080); ("slot1", 430080);
             ("scratch", 1024); ("storage", 77824)] = 1051648 /\
  calculate_partitions 1048576
    [("mcuboot", 112640); ("slot0", 430080); ("slot1", 430080);
     ("scratch", 1024); ("storage", 77824)]
  = Raise (Exc ValueError "Partition 'storage' exceeds flash size!") /\
  sum_sizes [("mcuboot", 112640); ("slot0", 442368); ("slot1", 442368);
             ("scratch", 1024); ("storage", 50176)] = 1048576 /\
  calculate_partitions 1048576
    [("mcuboot", 112640); ("slot0", 442368); ("slot1", 442368);
     ("scratch", 1024); ("storage", 50176)]
  = Ok [ PartitionInfo "mcuboot" 0x0 0x1B800 112640;
         PartitionInfo "slot0" 0x1B800 0x87800 442368;
         PartitionInfo "slot1" 0x87800 0xF3800 442368;
         PartitionInfo "scratch" 0xF3800 0xF3C00 1024;
         PartitionInfo "storage" 0xF3C00 0x100000 50176 ].
Proof. repeat split. Qed.

(** *** The built-in configuration *)

(** C9. The sizes of [main] are 112640, 428544, 428544, 1024 and 77824;
    the space left for the two slots is even, so halving it loses
    nothing and the five sizes sum to exactly [FLASH_SIZE]. The layout
    is therefore computed without an exception, its last record ends
    at 0x100000, and [main] writes both files from it. *)
Theorem main_layout_tiles_flash :
  FLASH_SIZE = 1048576 /\
  partitions = [("mcuboot", 112640); ("slot0", 428544); ("slot1", 428544);
                ("scratch", 1024); ("storage", 77824)] /\
  (FLASH_SIZE - mcuboot - storage - scratch) mod 2 = 0 /\
  sum_sizes partitions = FLASH_SIZE /\
  exists layout,
    calculate_partitions FLASH_SIZE partitions = Ok layout /\
    (exists r, last layout = Some r /\ end_ r = 0x100000) /\
    (forall fs,
        main fs = Ok (update_app_overlay layout
                        (update_pm_static_yml layout (create_backup_files fs)))).
Proof.
  repeat split.
  eexists. split; [reflexivity|]. split; [|done].
  eexists. split; reflexivity.
Qed.

(** ** Strings *)

Lemma str_app_cons (c : ascii) (s t : string) :
  String c s +:+ t = String c (s +:+ t).
Proof. reflexivity. Qed.

Lemma str_app_nil_r (s : string) : s +:+ "" = s.
Proof. induction s as [|c s IH]; [done|]. by rewrite str_app_cons, IH. Qed.

Lemma str_app_assoc (s t u : string) : (s +:+ t) +:+ u = s +:+ t +:+ u.
Proof. induction s as [|c s IH]; [done|]. by rewrite !str_app_cons, IH. Qed.

Lemma str_app_length (s t : string) :
  String.length (s +:+ t) = (String.length s + String.length t)%nat.
Proof. induction s as [|c s IH]; [done|]. rewrite str_app_cons. simpl. by rewrite IH. Qed.

Lemma str_app_inv_tail (s1 s2 t : string) : s1 +:+ t = s2 +:+ t -> s1 = s2.
Proof.
  revert s2. induction s1 as [|c s1 IH]; intros [|d s2] Heq; [done| | |].
  - apply (f_equal String.length) in Heq.
    change ("" +:+ t) with t in Heq. rewrite str_app_cons in Heq.
    simpl in Heq. rewrite str_app_length in Heq. lia.
  - apply (f_equal String.length) in Heq.
    change ("" +:+ t) with t in Heq. rewrite str_app_cons in Heq.
    simpl in Heq. rewrite str_app_length in Heq. lia.
  - rewrite !str_app_cons in Heq. injection Heq as -> Heq. f_equal. by apply IH.
Qed.

Lemma join_append (xs ys : list string) : join (xs ++ ys) = join xs +:+ join ys.
Proof.
  induction xs as [|x xs IH]; [done|]. simpl. by rewrite IH, str_app_assoc.
Qed.

(** ** The two name tables *)

Lemma get_pm_static_name_cases (n : string) :
  get_pm_static_name n =
    if decide (n = "mcuboot") then "mcuboot"
    else if decide (n = "slot0") then "mcuboot_primary"
    else if decide (n = "slot1") then "mcuboot_secondary"
    else if decide (n = "scratch") then "mcuboot_scratch"
    else if decide (n = "storage") then "settings_storage"
    else n.
Proof.
  unfold get_pm_static_name, name_mapping. simpl.
  repeat (case_decide;
          [subst n; by rewrite lookup_insert_eq | rewrite lookup_insert_ne by done]).
  by rewrite lookup_empty.
Qed.

Lemma get_overlay_label_cases (n : string) :
  get_overlay_label n =
    if decide (n = "mcuboot") then "mcuboot"
    else if decide (n = "slot0") then "image-0"
    else if decide (n = "slot1") then "image-1"
    else if decide (n = "scratch") then "image-scratch"
    else if decide (n = "storage") then "storage"
    else n.
Proof.
  unfold get_overlay_label, label_mapping. simpl.
  repeat (case_decide;
          [subst n; by rewrite lookup_insert_eq | rewrite lookup_insert_ne by done]).
  by rewrite lookup_empty.
Qed.

(** ** The emitters as block-wise concatenations *)

Lemma pm_static_step_lines (content : string) (r : partition_info) :
  pm_static_step content r = content +:+ join (pm_static_lines r).
Proof.
  unfold pm_static_step, pm_static_lines, join. simpl.
  by rewrite !str_app_assoc, str_app_nil_r.
Qed.

Lemma pm_static_content_lines (rs : list partition_info) :
  pm_static_content rs = pm_static_preamble +:+ join (mjoin (map pm_static_lines rs)).
Proof.
  unfold pm_static_content. generalize pm_static_preamble as content.
  induction rs as [|r rs IH]; intros content.
  - simpl. by rewrite str_app_nil_r.
  - change (foldl pm_static_step content (r :: rs))
      with (foldl pm_static_step (pm_static_step content r) rs).
    change (mjoin (map pm_static_lines (r :: rs)))
      with (pm_static_lines r ++ mjoin (map pm_static_lines rs)).
    by rewrite IH, pm_static_step_lines, join_append, str_app_assoc.
Qed.

Lemma overlay_step_node (content : string) (r : partition_info) :
  overlay_step content r = content +:+ join (overlay_node r).
Proof.
  unfold overlay_step, overlay_node, overlay_reg, partition_node_name, join. simpl.
  by rewrite !str_app_assoc, str_app_nil_r.
Qed.

Lemma overlay_content_nodes (rs : list partition_info) :
  overlay_content rs =
    overlay_preamble +:+ join (mjoin (map overlay_node rs)) +:+ overlay_closing.
Proof.
  unfold overlay_content. rewrite <- str_app_assoc. f_equal.
  generalize overlay_preamble as content.
  induction rs as [|r rs IH]; intros content.
  - simpl. by rewrite str_app_nil_r.
  - change (foldl overlay_step content (r :: rs))
      with (foldl overlay_step (overlay_step content r) rs).
    change (mjoin (map overlay_node (r :: rs)))
      with (overlay_node r ++ mjoin (map overlay_node rs)).
    by rewrite IH, overlay_step_node, join_append, str_app_assoc.
Qed.

(** ** Hexadecimal text *)

Lemma hex_digit_value (d : Z) : 0 <= d < 16 -> hex_value (hex_digit d) = Some d.
Proof.
  intros Hd.
  assert (d = 0 \/ d = 1 \/ d = 2 \/ d = 3 \/ d = 4 \/ d = 5 \/ d = 6 \/ d = 7 \/
          d = 8 \/ d = 9 \/ d = 10 \/ d = 11 \/ d = 12 \/ d = 13 \/ d = 14 \/ d = 15)
    as Hcases by lia.
  repeat (destruct Hcases as [->|Hcases]; [reflexivity|]). by subst d.
Qed.

Lemma is_hex_not_special (c : ascii) :
  is_hex c = true ->
  py_isspace c = false /\ c <> ":"%char /\ c <> "_"%char /\
  c <> "-"%char /\ c <> "+"%char /\ c <> "010"%char.
Proof.
  destruct c as [[] [] [] [] [] [] [] []]; vm_compute; intros; try discriminate;
    repeat split; discriminate.
Qed.

Lemma hex_digits_aux_is_hex (fuel : nat) :
  forall n acc,
    all_chars is_hex acc = true ->
    all_chars is_hex (hex_digits_aux fuel n acc) = true.
Proof.
  induction fuel as [|fuel IH]; intros n acc Hacc; simpl; [done|].
  assert (all_chars is_hex (String (hex_digit (n mod 16)) acc) = true) as Hacc'.
  { simpl. rewrite Hacc, andb_true_r. unfold is_hex.
    by rewrite hex_digit_value by (apply Z.mod_pos_bound; lia). }
  destruct (n / 16 =? 0); [done | by apply IH].
Qed.

Lemma hex_digits_aux_length (fuel : nat) :
  forall n acc (k : nat),
    (1 <= k)%nat ->
    0 <= n < 16 ^ Z.of_nat k ->
    (1 + String.length acc <= String.length (hex_digits_aux (S fuel) n acc)
       <= k + String.length acc)%nat.
Proof.
  induction fuel as [|fuel IH]; intros n acc k Hk Hn.
  - simpl. destruct (n / 16 =? 0); simpl; lia.
  - change (hex_digits_aux (S (S fuel)) n acc)
      with (if n / 16 =? 0 then String (hex_digit (n mod 16)) acc
            else hex_digits_aux (S fuel) (n / 16) (String (hex_digit (n mod 16)) acc)).
    destruct (Z.eqb_spec (n / 16) 0) as [Hz|Hnz]; [simpl; lia|].
    destruct k as [|[|k]]; [lia | |].
    + change (16 ^ Z.of_nat 1) with 16 in Hn.
      rewrite Z.div_small in Hnz by lia. done.
    + specialize (IH (n / 16) (String (hex_digit (n mod 16)) acc) (S k)).
      change (String.length (String (hex_digit (n mod 16)) acc))
        with (S (String.length acc)) in IH.
      assert (0 <= n / 16 < 16 ^ Z.of_nat (S k)) as Hdiv.
      { split; [apply Z.div_pos; lia|].
        apply Z.div_lt_upper_bound; [lia|].
        replace (Z.of_nat (S (S k))) with (1 + Z.of_nat (S k)) in Hn by lia.
        rewrite Z.pow_add_r in Hn by lia. lia. }
      specialize (IH ltac:(lia) Hdiv). lia.
Qed.

(** Reading the digits back gives the number, whatever text follows. *)
Lemma int16_digits_hex_digits_aux (fuel : nat) :
  forall n acc b,
    0 <= n < 2 ^ Z.of_nat (S fuel) ->
    int16_digits b (hex_digits_aux (S fuel) n acc) 0 = int16_digits true acc n.
Proof.
  assert (forall n acc b, 0 <= n ->
            int16_digits b (String (hex_digit (n mod 16)) acc) (n / 16)
            = int16_digits true acc n) as Hone.
  { intros n acc b Hn. simpl.
    assert (is_hex (hex_digit (n mod 16)) = true) as Hhex.
    { unfold is_hex. by rewrite hex_digit_value by (apply Z.mod_pos_bound; lia). }
    apply is_hex_not_special in Hhex as (_ & _ & Hus & _).
    rewrite decide_False by done.
    rewrite hex_digit_value by (apply Z.mod_pos_bound; lia).
    f_equal. pose proof (Z.div_mod n 16). lia. }
  induction fuel as [|fuel IH]; intros n acc b Hn.
  - change (2 ^ Z.of_nat 1) with 2 in Hn.
    unfold hex_digits_aux. rewrite Z.div_small by lia. simpl Z.eqb. cbv iota.
    rewrite <- (Hone n acc b) by lia. by rewrite Z.div_small by lia.
  - change (hex_digits_aux (S (S fuel)) n acc)
      with (if n / 16 =? 0 then String (hex_digit (n mod 16)) acc
            else hex_digits_aux (S fuel) (n / 16) (String (hex_digit (n mod 16)) acc)).
    destruct (Z.eqb_spec (n / 16) 0) as [Hz|Hnz].
    + rewrite <- (Hone n acc b) by lia. by rewrite Hz.
    + rewrite IH.
      * apply Hone. lia.
      * split; [apply Z.div_pos; lia|].
        apply Z.div_lt_upper_bound; [lia|].
        replace (Z.of_nat (S (S fuel))) with (1 + Z.of_nat (S fuel)) in Hn by lia.
        rewrite Z.pow_add_r in Hn by lia. lia.
Qed.

Lemma hex_digits_fuel (n : Z) :
  0 <= n -> 0 <= n < 2 ^ Z.of_nat (S (Z.to_nat (Z.log2 n))).
Proof.
  intros Hn. split; [done|].
  destruct (Z.eq_dec n 0) as [->|Hnz]; [done|].
  rewrite Nat2Z.inj_succ, Z2Nat.id by apply Z.log2_nonneg.
  apply Z.log2_spec. lia.
Qed.

Lemma int16_digits_hex_digits (n : Z) (b : bool) :
  0 <= n -> int16_digits b (hex_digits n) 0 = Some n.
Proof.
  intros Hn. unfold hex_digits.
  by rewrite int16_digits_hex_digits_aux by by apply hex_digits_fuel.
Qed.

Lemma hex_digits_is_hex (n : Z) : all_chars is_hex (hex_digits n) = true.
Proof. by apply hex_digits_aux_is_hex. Qed.

Lemma hex_digits_length (n : Z) (k : nat) :
  (1 <= k)%nat -> 0 <= n < 16 ^ Z.of_nat k ->
  (1 <= String.length (hex_digits n) <= k)%nat.
Proof.
  intros Hk Hn. unfold hex_digits.
  pose proof (hex_digits_aux_length (Z.to_nat (Z.log2 n)) n "" k Hk Hn) as H.
  change (String.length "") with 0%nat in H. lia.
Qed.

Lemma hex_digits_aux_longer (fuel : nat) :
  forall n acc,
    (String.length acc < String.length (hex_digits_aux (S fuel) n acc))%nat.
Proof.
  induction fuel as [|fuel IH]; intros n acc.
  - simpl. destruct (n / 16 =? 0); simpl; lia.
  - change (hex_digits_aux (S (S fuel)) n acc)
      with (if n / 16 =? 0 then String (hex_digit (n mod 16)) acc
            else hex_digits_aux (S fuel) (n / 16) (String (hex_digit (n mod 16)) acc)).
    destruct (n / 16 =? 0); [simpl; lia|].
    specialize (IH (n / 16) (String (hex_digit (n mod 16)) acc)).
    change (String.length (String (hex_digit (n mod 16)) acc))
      with (S (String.length acc)) in IH.
    lia.
Qed.

(** The digits start with a digit. *)
Lemma hex_digits_cons (n : Z) :
  exists d ds, hex_digits n = String d ds /\
               is_hex d = true /\ all_chars is_hex ds = true.
Proof.
  pose proof (hex_digits_is_hex n) as Hall.
  pose proof (hex_digits_aux_longer (Z.to_nat (Z.log2 n)) n "") as Hlen.
  fold (hex_digits n) in Hlen.
  destruct (hex_digits n) as [|d ds]; [simpl in Hlen; lia|].
  exists d, ds. simpl in Hall. apply andb_prop in Hall as [? ?]. done.
Qed.

(** ** Stripping and splitting *)

Lemma str_app_nil_l (s : string) : "" +:+ s = s.
Proof. reflexivity. Qed.

(** Brings a text that starts with a literal into constructor form. *)
Ltac str_norm := rewrite ?str_app_cons, ?str_app_nil_l.

Lemma all_chars_impl (p q : ascii -> bool) (s : string) :
  (forall c, p c = true -> q c = true) ->
  all_chars p s = true -> all_chars q s = true.
Proof.
  intros Hpq. induction s as [|c s IH]; simpl; [done|].
  intros [Hc Hs]%andb_prop. by rewrite (Hpq c Hc), IH.
Qed.

Lemma all_chars_app (p : ascii -> bool) (s t : string) :
  all_chars p (s +:+ t) = all_chars p s && all_chars p t.
Proof.
  induction s as [|c s IH]; [done|]. rewrite str_app_cons. simpl.
  by rewrite IH, andb_assoc.
Qed.

Lemma rstrip_chars_keep (drop : ascii -> bool) (s : string) :
  all_chars (fun c => negb (drop c)) s = true -> rstrip_chars drop s = s.
Proof.
  induction s as [|c s IH]; simpl; [done|].
  intros [Hc Hs]%andb_prop. rewrite (IH Hs).
  destruct s; [|done]. by destruct (drop c).
Qed.

Lemma rstrip_chars_app (drop : ascii -> bool) (s t : string) :
  rstrip_chars drop (s +:+ t) =
    match rstrip_chars drop t with
    | "" => rstrip_chars drop s
    | t' => s +:+ t'
    end.
Proof.
  induction s as [|c s IH].
  - rewrite str_app_nil_l. by destruct (rstrip_chars drop t).
  - rewrite str_app_cons. simpl. rewrite IH.
    destruct (rstrip_chars drop t) as [|d t']; [done|].
    destruct s; by rewrite ?str_app_cons, ?str_app_nil_l.
Qed.

Lemma lstrip_chars_keep (drop : ascii -> bool) (c : ascii) (s : string) :
  drop c = false -> lstrip_chars drop (String c s) = String c s.
Proof. intros Hc. simpl. by rewrite Hc. Qed.

Lemma lstrip_chars_drop (drop : ascii -> bool) (c : ascii) (s : string) :
  drop c = true -> lstrip_chars drop (String c s) = lstrip_chars drop s.
Proof. intros Hc. simpl. by rewrite Hc. Qed.

Lemma strip_chars_keep (drop : ascii -> bool) (s : string) :
  all_chars (fun c => negb (drop c)) s = true -> strip_chars drop s = s.
Proof.
  intros Hs. unfold strip_chars.
  assert (lstrip_chars drop s = s) as ->.
  { destruct s as [|c s]; [done|]. simpl in Hs. apply andb_prop in Hs as [Hc _].
    apply lstrip_chars_keep. by destruct (drop c). }
  by apply rstrip_chars_keep.
Qed.

Lemma strip_keep (s : string) :
  all_chars (fun c => negb (py_isspace c)) s = true -> strip s = s.
Proof. apply strip_chars_keep. Qed.

(** A line of the emitted files: the line break goes, the rest stays. *)
Lemma strip_line (s : string) :
  all_chars (fun c => negb (py_isspace c)) s = true ->
  strip (s +:+ LF) = s.
Proof.
  intros Hs. destruct s as [|c s]; [done|]. unfold strip, strip_chars.
  assert (lstrip_chars py_isspace (String c s +:+ LF) = String c s +:+ LF) as ->.
  { simpl in Hs. apply andb_prop in Hs as [Hc _].
    rewrite str_app_cons. apply lstrip_chars_keep. by destruct (py_isspace c). }
  rewrite rstrip_chars_app. change (rstrip_chars py_isspace LF) with "".
  by apply rstrip_chars_keep.
Qed.

Lemma split1_app (c : ascii) (k v : string) :
  all_chars (fun d => negb (bool_decide (d = c))) k = true ->
  split1 c (k +:+ String c v) = Some (k, v).
Proof.
  induction k as [|d k IH]; simpl.
  - intros _. rewrite ?str_app_nil_l. simpl. by rewrite decide_True.
  - intros [Hd Hk]%andb_prop. rewrite ?str_app_cons. simpl.
    apply negb_true_iff, bool_decide_eq_false in Hd.
    by rewrite decide_False, IH.
Qed.

Lemma readlines_line (s rest : string) :
  all_chars line_char s = true ->
  readlines (s +:+ LF +:+ rest) = (s +:+ LF) :: readlines rest.
Proof.
  induction s as [|c s IH]; simpl.
  - intros _. by rewrite ?str_app_nil_l.
  - intros [[Hlf Hcr]%andb_prop Hs]%andb_prop. rewrite ?str_app_cons. simpl.
    apply negb_true_iff, bool_decide_eq_false in Hlf, Hcr.
    rewrite !decide_False by done. by rewrite IH.
Qed.

(** What is not whitespace does not end a line. *)
Lemma nospace_line (s : string) :
  all_chars (fun c => negb (py_isspace c)) s = true ->
  all_chars line_char s = true.
Proof.
  apply all_chars_impl. intros c Hc.
  destruct c as [[] [] [] [] [] [] [] []]; done.
Qed.

(** ** Reading a formatted number back *)

Lemma is_hex_nospace (s : string) :
  all_chars is_hex s = true ->
  all_chars (fun c => negb (py_isspace c)) s = true.
Proof.
  apply all_chars_impl. intros c Hc.
  apply is_hex_not_special in Hc as (-> & _). done.
Qed.

(** What [str.strip] keeps, the narrower stripping of [int] keeps. *)
Lemma py_isspace_is_space (c : ascii) :
  py_isspace c = false -> int_isspace c = false.
Proof. destruct c as [[] [] [] [] [] [] [] []]; done. Qed.

Lemma nospace_int (s : string) :
  all_chars (fun c => negb (py_isspace c)) s = true ->
  all_chars (fun c => negb (int_isspace c)) s = true.
Proof.
  apply all_chars_impl. intros c Hc. apply negb_true_iff in Hc.
  by rewrite py_isspace_is_space.
Qed.

Lemma int16_0x (s : string) (v : Z) :
  all_chars is_hex s = true ->
  int16_digits false s 0 = Some v ->
  int16 (String "0" (String "x" s)) = Some v /\
  int16 (String "-" (String "0" (String "x" s))) = Some (- v).
Proof.
  intros Hhex Hv.
  pose proof (is_hex_nospace s Hhex) as Hns.
  assert (match s with String "_" t' => t' | _ => s end = s) as Hskip.
  { destruct s as [|d ds]; [done|]. simpl in Hhex.
    apply andb_prop in Hhex as [Hd _].
    apply is_hex_not_special in Hd as (_ & _ & Hus & _).
    destruct d as [[] [] [] [] [] [] [] []]; done. }
  apply nospace_int in Hns.
  unfold int16. split.
  - rewrite strip_chars_keep by (simpl; by rewrite Hns).
    cbv beta iota. rewrite Hskip, Hv. done.
  - rewrite strip_chars_keep by (simpl; by rewrite Hns).
    cbv beta iota. rewrite Hskip, Hv. done.
Qed.

Lemma sign_of_abs (v : Z) :
  (v < 0 /\ sign_of v = "-" /\ v = - Z.abs v) \/
  (0 <= v /\ sign_of v = "" /\ v = Z.abs v).
Proof.
  unfold sign_of. destruct (Z.ltb_spec v 0); [left | right]; repeat split; lia.
Qed.

(** [int(format(v, '#x'), 16) == v] for every integer [v]. *)
Lemma int16_format_hash_x (v : Z) : int16 (format_hash_x v) = Some v.
Proof.
  unfold format_hash_x.
  destruct (int16_0x (hex_digits (Z.abs v)) (Z.abs v)) as [Hpos Hneg].
  { apply hex_digits_is_hex. }
  { apply int16_digits_hex_digits. lia. }
  destruct (sign_of_abs v) as [(_ & -> & Hv)|(_ & -> & Hv)]; str_norm.
  - by rewrite Hneg, <- Hv.
  - by rewrite Hpos, <- Hv.
Qed.


Lemma int16_digits_zeros (k : nat) (s : string) (b : bool) :
  int16_digits b (zeros k +:+ s) 0 =
    int16_digits (match k with O => b | S _ => true end) s 0.
Proof.
  revert b. induction k as [|k IH]; intros b; [done|].
  simpl zeros. rewrite str_app_cons. simpl. rewrite IH. by destruct k.
Qed.

Lemma zeros_length (k : nat) : String.length (zeros k) = k.
Proof. induction k as [|k IH]; simpl; [done | by rewrite IH]. Qed.

Lemma zeros_is_hex (k : nat) : all_chars is_hex (zeros k) = true.
Proof. induction k as [|k IH]; simpl; [done | by rewrite IH]. Qed.

(** A value that fits 32 bits is written as [0x] and exactly eight
    digits, and reads back as itself. *)
Lemma format_hash_010x_32bit (v : Z) :
  0 <= v < 2 ^ 32 ->
  exists d,
    format_hash_010x v = "0x" +:+ d /\
    String.length d = 8%nat /\
    all_chars is_hex d = true /\
    int16 (format_hash_010x v) = Some v.
Proof.
  intros Hv. unfold format_hash_010x.
  assert (sign_of v = "") as -> by (unfold sign_of; by destruct (Z.ltb_spec v 0); [lia|]).
  rewrite Z.abs_eq by lia.
  pose proof (hex_digits_length v 8 ltac:(lia) ltac:(simpl; lia)) as Hlen.
  rewrite str_app_nil_l. change (String.length "0x") with 2%nat.
  set (k := (10 - 2 - String.length (hex_digits v))%nat).
  exists (zeros k +:+ hex_digits v). split; [done|].
  split; [rewrite str_app_length, zeros_length; lia|].
  split; [by rewrite all_chars_app, zeros_is_hex, hex_digits_is_hex|].
  str_norm. apply int16_0x.
  - by rewrite all_chars_app, zeros_is_hex, hex_digits_is_hex.
  - rewrite int16_digits_zeros. apply int16_digits_hex_digits. lia.
Qed.

(** ** The partition-manager emitter *)

(** C6. The emitter renames mcuboot, slot0, slot1, scratch and storage
    to mcuboot, mcuboot_primary, mcuboot_secondary, mcuboot_scratch and
    settings_storage, and leaves every other name as it is. The file
    it writes is the preamble followed by one block per record, in
    input order: the mapped name, the start as [address], the end as
    [end_address], the region [flash_primary] and the size, each number
    in the [0x] hexadecimal form that reads back as the number. *)
Theorem pm_static_emitter (rs : list partition_info) (fs : gmap string string) :
  get_pm_static_name "mcuboot" = "mcuboot" /\
  get_pm_static_name "slot0" = "mcuboot_primary" /\
  get_pm_static_name "slot1" = "mcuboot_secondary" /\
  get_pm_static_name "scratch" = "mcuboot_scratch" /\
  get_pm_static_name "storage" = "settings_storage" /\
  (forall n,
      n <> "mcuboot" -> n <> "slot0" -> n <> "slot1" -> n <> "scratch" ->
      n <> "storage" -> get_pm_static_name n = n) /\
  update_pm_static_yml rs fs !! "pm_static.yml" = Some (pm_static_content rs) /\
  pm_static_content rs =
    pm_static_preamble +:+
    join (mjoin (map (fun r =>
      [ get_pm_static_name (name r) +:+ ":" +:+ LF;
        "  address: " +:+ format_hash_x (start r) +:+ LF;
        "  end_address: " +:+ format_hash_x (end_ r) +:+ LF;
        "  region: flash_primary" +:+ LF;
        "  size: " +:+ format_hash_x (size r) +:+ LF;
        LF ]) rs)) /\
  Forall (fun r =>
    int16 (format_hash_x (start r)) = Some (start r) /\
    int16 (format_hash_x (end_ r)) = Some (end_ r) /\
    int16 (format_hash_x (size r)) = Some (size r)) rs.
Proof.
  split; [by rewrite get_pm_static_name_cases|].
  split; [by rewrite get_pm_static_name_cases|].
  split; [by rewrite get_pm_static_name_cases|].
  split; [by rewrite get_pm_static_name_cases|].
  split; [by rewrite get_pm_static_name_cases|].
  split.
  { intros n ? ? ? ? ?. rewrite get_pm_static_name_cases.
    by rewrite !decide_False by done. }
  split; [apply lookup_insert_eq|].
  split; [apply pm_static_content_lines|].
  apply Forall_forall. intros r _. by rewrite !int16_format_hash_x.
Qed.

(** A name outside the table passes through. *)
Example pm_static_emitter_witness : get_pm_static_name "boot2" = "boot2".
Proof.
  destruct (pm_static_emitter [] ∅) as (_ & _ & _ & _ & _ & Hother & _).
  apply Hother; discriminate.
Defined.

(** ** The overlay emitter *)

Lemma overlay_annotation_cases (r : partition_info) :
  (name r = "mcuboot" /\
   overlay_annotation r = TAB +:+ TAB +:+ TAB +:+ "read-only;" +:+ LF) \/
  (name r = "slot0" /\
   overlay_annotation r = TAB +:+ TAB +:+ TAB +:+ "// Primary application slot" +:+ LF) \/
  (name r = "slot1" /\
   overlay_annotation r = TAB +:+ TAB +:+ TAB +:+ "// Secondary application slot" +:+ LF) \/
  (name r = "scratch" /\
   overlay_annotation r = TAB +:+ TAB +:+ TAB +:+ "// MCUboot scratch area" +:+ LF) \/
  (name r = "storage" /\
   overlay_annotation r = TAB +:+ TAB +:+ TAB +:+ "// Settings storage" +:+ LF) \/
  (name r <> "mcuboot" /\ name r <> "slot0" /\ name r <> "slot1" /\
   name r <> "scratch" /\ name r <> "storage" /\ overlay_annotation r = "").
Proof.
  unfold overlay_annotation.
  repeat (case_decide; [by eauto 10|]). do 5 right. done.
Qed.

(** C7. For every record the overlay emitter adds one node, which the
    file written for a sequence with that record contains: its name
    is the record's name followed by [_partition]; its label is image-0,
    image-1, image-scratch or storage for slot0, slot1, scratch and
    storage and the record's name otherwise; its [reg] property holds
    the start and the size in the [#010x] form, which for a value that
    fits 32 bits is [0x] followed by exactly eight hexadecimal digits
    of that value; the line [read-only;] is there exactly for the
    name mcuboot, a comment line for slot0, slot1, scratch and storage,
    and nothing for any other name. *)
Theorem overlay_emitter_node (content : string) (r : partition_info) :
  overlay_step content r = content +:+ join (overlay_node r) /\
  (forall rs, r ∈ rs ->
     exists before after,
       overlay_content rs = before +:+ join (overlay_node r) +:+ after) /\
  overlay_node r =
    [ TAB +:+ TAB +:+ partition_node_name r +:+ ": partition@"
        +:+ format_x (start r) +:+ " {" +:+ LF;
      TAB +:+ TAB +:+ TAB +:+ "label = " +:+ DQUOTE
        +:+ get_overlay_label (name r) +:+ DQUOTE +:+ ";" +:+ LF;
      TAB +:+ TAB +:+ TAB +:+ "reg = <" +:+ format_hash_010x (start r) +:+ " "
        +:+ format_hash_010x (size r) +:+ ">;" +:+ LF;
      overlay_annotation r;
      TAB +:+ TAB +:+ "};" +:+ LF;
      LF ] /\
  partition_node_name r = name r +:+ "_partition" /\
  get_overlay_label (name r) =
    (if decide (name r = "slot0") then "image-0"
     else if decide (name r = "slot1") then "image-1"
     else if decide (name r = "scratch") then "image-scratch"
     else if decide (name r = "storage") then "storage"
     else name r) /\
  (overlay_annotation r = TAB +:+ TAB +:+ TAB +:+ "read-only;" +:+ LF
   <-> name r = "mcuboot") /\
  (name r = "slot0" ->
   overlay_annotation r = TAB +:+ TAB +:+ TAB +:+ "// Primary application slot" +:+ LF) /\
  (name r = "slot1" ->
   overlay_annotation r = TAB +:+ TAB +:+ TAB +:+ "// Secondary application slot" +:+ LF) /\
  (name r = "scratch" ->
   overlay_annotation r = TAB +:+ TAB +:+ TAB +:+ "// MCUboot scratch area" +:+ LF) /\
  (name r = "storage" ->
   overlay_annotation r = TAB +:+ TAB +:+ TAB +:+ "// Settings storage" +:+ LF) /\
  (name r <> "mcuboot" -> name r <> "slot0" -> name r <> "slot1" ->
   name r <> "scratch" -> name r <> "storage" -> overlay_annotation r = "") /\
  (forall v, v = start r \/ v = size r -> 0 <= v < 2 ^ 32 ->
     exists d, format_hash_010x v = "0x" +:+ d /\
               String.length d = 8%nat /\
               all_chars is_hex d = true /\
               int16 (format_hash_010x v) = Some v).
Proof.
  split; [apply overlay_step_node|].
  split.
  { intros rs (pre & post & ->)%list_elem_of_split.
    rewrite overlay_content_nodes, map_app.
    change (map overlay_node (r :: post)) with (overlay_node r :: map overlay_node post).
    rewrite join_app.
    change (mjoin (overlay_node r :: map overlay_node post))
      with (overlay_node r ++ mjoin (map overlay_node post)).
    rewrite !join_append.
    exists (overlay_preamble +:+ join (mjoin (map overlay_node pre))),
           (join (mjoin (map overlay_node post)) +:+ overlay_closing).
    by rewrite !str_app_assoc. }
  split; [done|].
  split; [done|].
  split.
  { rewrite get_overlay_label_cases.
    destruct (decide (name r = "mcuboot")) as [->|]; done. }
  pose proof (overlay_annotation_cases r) as Hcases.
  split; [|split; [|split; [|split; [|split; [|split]]]]].
  - split.
    + intros Hro. rewrite Hro in Hcases.
      destruct Hcases as [[? _]|[[_ ?]|[[_ ?]|[[_ ?]|[[_ ?]|(_&_&_&_&_&?)]]]]];
        done.
    + intros Hn. unfold overlay_annotation. by rewrite decide_True.
  - intros Hn. unfold overlay_annotation. by rewrite Hn.
  - intros Hn. unfold overlay_annotation. by rewrite Hn.
  - intros Hn. unfold overlay_annotation. by rewrite Hn.
  - intros Hn. unfold overlay_annotation. by rewrite Hn.
  - intros. unfold overlay_annotation. by rewrite !decide_False.
  - intros v _ Hv. by apply format_hash_010x_32bit.
Qed.

(** The theorem at the slot0 record of the built-in configuration. *)
Example overlay_emitter_node_witness :
  overlay_annotation (PartitionInfo "slot0" 0x1B800 0x84200 428544) =
    TAB +:+ TAB +:+ TAB +:+ "// Primary application slot" +:+ LF /\
  exists d, format_hash_010x 0x1B800 = "0x" +:+ d /\
            String.length d = 8%nat /\
            all_chars is_hex d = true /\
            int16 (format_hash_010x 0x1B800) = Some 0x1B800.
Proof.
  destruct (overlay_emitter_node "" (PartitionInfo "slot0" 0x1B800 0x84200 428544))
    as (_ & _ & _ & _ & _ & _ & Hslot0 & _ & _ & _ & _ & Hreg).
  split.
  - apply Hslot0. reflexivity.
  - apply Hreg; [left; reflexivity | lia].
Defined.

(** C10. Whatever the records are, the overlay starts with the same
    root node, whose [chosen] entry refers to [slot0_partition]; a node
    of that name is generated only for a record named slot0, so for a
    sequence without such a record, the empty one included, the
    reference is emitted and the node is not. *)
Theorem overlay_code_partition_unconditional (rs : list partition_info) :
  (exists rest,
      overlay_content rs =
        "// Auto-generated app.overlay from partion.py" +:+ LF +:+
        "// Device tree overlay for partition configuration" +:+ LF +:+ LF +:+
        "/ {" +:+ LF +:+
        TAB +:+ "chosen {" +:+ LF +:+
        TAB +:+ TAB +:+ "zephyr,code-partition = &slot0_partition;" +:+ LF +:+
        rest) /\
  (Forall (fun r => name r <> "slot0") rs ->
   Forall (fun r => partition_node_name r <> "slot0_partition") rs).
Proof.
  split.
  - rewrite overlay_content_nodes. unfold overlay_preamble.
    eexists. rewrite !str_app_assoc. reflexivity.
  - intros Hrs. eapply Forall_impl; [exact Hrs|]. intros r Hne Heq. apply Hne.
    unfold partition_node_name in Heq.
    by apply (str_app_inv_tail _ "slot0" "_partition").
Qed.

(** A sequence without slot0 gets no slot0_partition node. *)
Example overlay_code_partition_unconditional_witness :
  Forall (fun r => partition_node_name r <> "slot0_partition")
    [PartitionInfo "mcuboot" 0 16 16].
Proof.
  apply (overlay_code_partition_unconditional [PartitionInfo "mcuboot" 0 16 16]).
  repeat constructor. discriminate.
Defined.

(** ** The empty request sequence *)

(** C8. Without requests the calculator returns no records, and on no
    records each emitter writes its fixed text only: the two comment
    lines and the blank line of [pm_static.yml], and for [app.overlay]
    the comment lines, the root node and an empty [partitions] node. *)
Theorem empty_layout_artifacts (capacity : Z) (fs : gmap string string) :
  calculate_partitions capacity [] = Ok [] /\
  update_pm_static_yml [] fs !! "pm_static.yml" =
    Some ("# Auto-generated pm_static.yml from partion.py" +:+ LF +:+
          "# Nordic Partition Manager static configuration" +:+ LF +:+ LF) /\
  update_app_overlay [] fs !! "app.overlay" =
    Some ("// Auto-generated app.overlay from partion.py" +:+ LF +:+
          "// Device tree overlay for partition configuration" +:+ LF +:+ LF +:+
          "/ {" +:+ LF +:+
          TAB +:+ "chosen {" +:+ LF +:+
          TAB +:+ TAB +:+ "zephyr,code-partition = &slot0_partition;" +:+ LF +:+
          TAB +:+ "};" +:+ LF +:+
          "};" +:+ LF +:+ LF +:+
          "&flash0 {" +:+ LF +:+
          TAB +:+ "partitions {" +:+ LF +:+
          TAB +:+ TAB +:+ "compatible = " +:+ DQUOTE +:+ "fixed-partitions" +:+ DQUOTE
            +:+ ";" +:+ LF +:+
          TAB +:+ TAB +:+ "#address-cells = <1>;" +:+ LF +:+
          TAB +:+ TAB +:+ "#size-cells = <1>;" +:+ LF +:+ LF +:+
          TAB +:+ "};" +:+ LF +:+
          "};" +:+ LF) /\
  mjoin (map pm_static_lines []) = [] /\
  mjoin (map overlay_node []) = [].
Proof.
  split; [reflexivity|].
  split; [unfold update_pm_static_yml; by rewrite lookup_insert_eq|].
  split; [unfold update_app_overlay; by rewrite lookup_insert_eq|].
  done.
Qed.

(** ** Reading the partition-manager file back *)











Lemma readlines_join (ls : list string) :
  Forall (fun l => exists s, l = s +:+ LF /\ all_chars line_char s = true) ls ->
  readlines (join ls) = ls.
Proof.
  induction 1 as [|l ls (s & -> & Hs) _ IH]; [done|].
  change (join ((s +:+ LF) :: ls)) with ((s +:+ LF) +:+ join ls).
  by rewrite str_app_assoc, readlines_line, IH.
Qed.


(** *** What the reader makes of a line

    The reader strips a line before it looks for leading blanks, so the
    indentation that tells a field from a header is gone: every line
    with a colon opens a partition, and the branch that records
    [address], [end_address] and [size] is never taken. *)

Lemma startswith_head (c d : ascii) (t : string) :
  d <> c -> startswith (String d t) (String c "") = false.
Proof. intros Hd. unfold startswith. simpl. by destruct (ascii_dec c d) as [->|]. Qed.

Lemma strip_not_indented (s : string) : startswith (strip s) " " = false.
Proof.
  unfold strip, strip_chars.
  assert (lstrip_chars py_isspace s = "" \/
          exists c t, lstrip_chars py_isspace s = String c t /\ py_isspace c = false)
    as [->|(c & t & -> & Hc)].
  { induction s as [|c s IH]; [by left|]. simpl.
    destruct (py_isspace c) eqn:Hc; [done|]. right. by exists c, s. }
  - done.
  - simpl. destruct (rstrip_chars py_isspace t); rewrite ?Hc;
      apply startswith_head; by intros ->.
Qed.

Lemma reader_step_opens_or_skips (st : AnalyzeFlash.reader_state) (line : string) :
  AnalyzeFlash.reader_step st line = Some st \/
  AnalyzeFlash.reader_step st line =
    Some (AnalyzeFlash.ReaderState
            (Some (AnalyzeFlash.header_name (strip line)))
            (AnalyzeFlash.dict_set (AnalyzeFlash.partitions st)
               (AnalyzeFlash.header_name (strip line)) ∅)).
Proof.
  unfold AnalyzeFlash.reader_step. rewrite strip_not_indented.
  destruct (negb (bool_decide (strip line = "")) && negb (startswith (strip line) "#"));
    [|by left].
  destruct (contains ":" (strip line)); [by right|].
  rewrite andb_false_r. by left.
Qed.

Lemma reader_step_eq (st : AnalyzeFlash.reader_state) (line : string) :
  AnalyzeFlash.reader_step st line =
    if negb (bool_decide (strip line = "")) && negb (startswith (strip line) "#")
         && contains ":" (strip line)
    then Some (AnalyzeFlash.ReaderState
                 (Some (AnalyzeFlash.header_name (strip line)))
                 (AnalyzeFlash.dict_set (AnalyzeFlash.partitions st)
                    (AnalyzeFlash.header_name (strip line)) ∅))
    else Some st.
Proof.
  unfold AnalyzeFlash.reader_step. rewrite strip_not_indented.
  destruct (negb (bool_decide (strip line = "")) && negb (startswith (strip line) "#"));
    [|done].
  destruct (contains ":" (strip line)); [done|].
  by rewrite andb_false_r.
Qed.









(** *** The emitted text under the reader *)














(** * Further properties of the code *)

(** ** The calculator for requests of any sign *)

Lemma sum_sizes_cons (n : string) (s : Z) (ps : list (string * Z)) :
  sum_sizes ((n, s) :: ps) = s + sum_sizes ps.
Proof. reflexivity. Qed.

(** The loop succeeds exactly when no running sum passes the end of
    the flash, and what it appends is then the tiling. *)
Lemma calculate_partitions_loop_ok (flash_size : Z) (ps : list (string * Z)) :
  forall cur acc recs,
    calculate_partitions_loop flash_size ps cur acc = Ok recs <->
    (forall k, (0 < k <= length ps)%nat -> cur + sum_sizes (take k ps) <= flash_size) /\
    recs = acc ++ tile cur ps.
Proof.
  induction ps as [|[n s] ps IH]; intros cur acc recs.
  - simpl. rewrite app_nil_r. split.
    + intros [= <-]. split; [|done]. intros k Hk. simpl in Hk. lia.
    + by intros [_ ->].
  - simpl calculate_partitions_loop.
    destruct (Z.gtb_spec (cur + s) flash_size) as [Hgt|Hle].
    + split; [done|]. intros [Hall _]. specialize (Hall 1%nat).
      simpl in Hall. lia.
    + rewrite IH. simpl tile. rewrite <- app_assoc. simpl app.
      split; intros [Hall ->]; (split; [|done]).
      * intros [|k] Hk; [lia|]. rewrite firstn_cons, sum_sizes_cons.
        destruct k as [|k]; [simpl; lia|].
        specialize (Hall (S k)).
        change (length ((n, s) :: ps)) with (S (length ps)) in Hk.
        specialize (Hall ltac:(lia)). lia.
      * intros k Hk. specialize (Hall (S k) ltac:(simpl; lia)).
        rewrite firstn_cons, sum_sizes_cons in Hall. lia.
Qed.

Lemma tile_length (ps : list (string * Z)) (cur : Z) :
  length (tile cur ps) = length ps.
Proof. rewrite <- (tile_requests ps cur) at 2. by rewrite length_map. Qed.

Lemma tile_app (ps qs : list (string * Z)) :
  forall cur, tile cur (ps ++ qs) = tile cur ps ++ tile (cur + sum_sizes ps) qs.
Proof.
  induction ps as [|[n s] ps IH]; intros cur; simpl.
  - f_equal. unfold sum_sizes. simpl. lia.
  - rewrite IH. do 3 f_equal. unfold sum_sizes. simpl. lia.
Qed.

Lemma tile_lookup (ps : list (string * Z)) :
  forall cur (i : nat) n s,
    ps !! i = Some (n, s) ->
    tile cur ps !! i =
      Some (PartitionInfo n (cur + sum_sizes (take i ps))
              (cur + sum_sizes (take i ps) + s) s).
Proof.
  induction ps as [|[n' s'] ps IH]; intros cur i n s; [done|].
  destruct i as [|i]; simpl.
  - intros [= -> ->]. do 2 f_equal; unfold sum_sizes; simpl; lia.
  - intros Hi. rewrite (IH _ _ _ _ Hi).
    do 2 f_equal; unfold sum_sizes; simpl; lia.
Qed.

(** X1. [calculate_partitions] succeeds exactly when, after each
    request, the sum of the sizes so far is within the capacity; sizes
    are not checked for their sign. *)
Theorem calculate_partitions_succeeds_iff (capacity : Z) (requests : list (string * Z)) :
  (exists records, calculate_partitions capacity requests = Ok records) <->
  (forall k, (0 < k <= length requests)%nat ->
             sum_sizes (take k requests) <= capacity).
Proof.
  unfold calculate_partitions. split.
  - intros [records [Hall _]%calculate_partitions_loop_ok].
    intros k Hk. specialize (Hall k Hk). lia.
  - intros Hall. exists (tile 0 requests).
    apply calculate_partitions_loop_ok. split; [|done].
    intros k Hk. specialize (Hall k Hk). lia.
Qed.

(** The theorem at a sequence with a negative size, which is accepted. *)
Example calculate_partitions_succeeds_iff_witness :
  exists records,
    calculate_partitions 100 [("a", 80); ("b", -30); ("c", 50)] = Ok records.
Proof.
  apply (calculate_partitions_succeeds_iff 100 [("a", 80); ("b", -30); ("c", 50)]).
  intros [|[|[|[|k]]]] Hk; simpl in *; lia.
Defined.

(** X2. In a layout that [calculate_partitions] returns, the record of
    the request at position [i] starts at the sum of the sizes of the
    requests before it, whatever their signs, and carries the name and
    size of that request. *)
Theorem calculate_partitions_closed_form (capacity : Z)
    (requests : list (string * Z)) (records : list partition_info) :
  calculate_partitions capacity requests = Ok records ->
  length records = length requests /\
  forall (i : nat) n s,
    requests !! i = Some (n, s) ->
    records !! i =
      Some (PartitionInfo n (sum_sizes (take i requests))
              (sum_sizes (take i requests) + s) s).
Proof.
  unfold calculate_partitions.
  intros [_ ->]%calculate_partitions_loop_ok. simpl. split.
  - apply tile_length.
  - intros i n s Hi. by rewrite (tile_lookup _ 0 _ _ _ Hi).
Qed.

Example calculate_partitions_closed_form_witness :
  length [PartitionInfo "a" 0 600 600; PartitionInfo "b" 600 1000 400] =
    length [("a", 600); ("b", 400)] /\
  forall (i : nat) n s,
    [("a", 600); ("b", 400)] !! i = Some (n, s) ->
    [PartitionInfo "a" 0 600 600; PartitionInfo "b" 600 1000 400] !! i =
      Some (PartitionInfo n (sum_sizes (take i [("a", 600); ("b", 400)]))
              (sum_sizes (take i [("a", 600); ("b", 400)]) + s) s).
Proof.
  apply (calculate_partitions_closed_form 1024 [("a", 600); ("b", 400)]).
  reflexivity.
Defined.

(** X3. If a request sequence is laid out, so is each of its prefixes,
    and the layout of the prefix is the beginning of the layout of the
    whole: later requests never move earlier partitions. *)
Theorem calculate_partitions_prefix (capacity : Z)
    (pre post : list (string * Z)) (records : list partition_info) :
  calculate_partitions capacity (pre ++ post) = Ok records ->
  calculate_partitions capacity pre = Ok (take (length pre) records).
Proof.
  unfold calculate_partitions.
  intros [Hall ->]%calculate_partitions_loop_ok.
  apply calculate_partitions_loop_ok. simpl. split.
  - intros k Hk. specialize (Hall k). rewrite length_app in Hall.
    rewrite take_app_le in Hall by lia. apply Hall. lia.
  - rewrite tile_app, <- (tile_length pre 0). by rewrite take_app_length.
Qed.

Example calculate_partitions_prefix_witness :
  calculate_partitions 1024 [("a", 600)] =
    Ok (take (length [("a", 600)])
          [PartitionInfo "a" 0 600 600; PartitionInfo "b" 600 1000 400]).
Proof.
  apply (calculate_partitions_prefix 1024 [("a", 600)] [("b", 400)]).
  reflexivity.
Defined.

(** X4. A layout computed for one capacity is returned unchanged for
    every larger capacity. *)
Theorem calculate_partitions_capacity_mono (capacity capacity' : Z)
    (requests : list (string * Z)) (records : list partition_info) :
  calculate_partitions capacity requests = Ok records ->
  capacity <= capacity' ->
  calculate_partitions capacity' requests = Ok records.
Proof.
  unfold calculate_partitions.
  intros [Hall ->]%calculate_partitions_loop_ok Hle.
  apply calculate_partitions_loop_ok. split; [|done].
  intros k Hk. specialize (Hall k Hk). lia.
Qed.

Example calculate_partitions_capacity_mono_witness :
  calculate_partitions 2048 [("a", 600); ("b", 400)] =
    Ok [PartitionInfo "a" 0 600 600; PartitionInfo "b" 600 1000 400].
Proof.
  apply (calculate_partitions_capacity_mono 1024 2048 [("a", 600); ("b", 400)]).
  - reflexivity.
  - lia.
Defined.

(** ** Every number written in hexadecimal reads back *)

(** Digits without a prefix are read as they stand. *)
Lemma int16_no_prefix (s : string) :
  all_chars is_hex s = true ->
  int16 s = int16_digits false s 0 /\
  int16 (String "-" s) = Z.opp <$> int16_digits false s 0.
Proof.
  intros Hhex.
  pose proof (nospace_int s (is_hex_nospace s Hhex)) as Hns.
  unfold int16.
  rewrite (strip_chars_keep _ s Hns).
  rewrite (strip_chars_keep _ (String "-" s)) by (simpl; by rewrite Hns).
  cbv beta iota.
  assert (match s with
          | String "0" (String "x" t) | String "0" (String "X" t) =>
              match t with String "_" t' => t' | _ => t end
          | _ => s
          end = s) as Hskip.
  { destruct s as [|d1 [|d2 t]]; [done| |].
    - destruct d1 as [[] [] [] [] [] [] [] []]; done.
    - simpl in Hhex. apply andb_prop in Hhex as [_ [Hd2 _]%andb_prop].
      destruct (decide (d1 = "0"%char)) as [->|Hd1].
      + destruct d2 as [[] [] [] [] [] [] [] []]; done.
      + destruct d1 as [[] [] [] [] [] [] [] []]; done. }
  split.
  - destruct s as [|d1 t]; [done|]. simpl in Hhex.
    apply andb_prop in Hhex as [Hd1 _].
    apply is_hex_not_special in Hd1 as (_ & _ & _ & Hminus & Hplus & _).
    assert (match String d1 t with
            | String "-" t0 => (true, t0)
            | String "+" t0 => (false, t0)
            | _ => (false, String d1 t)
            end = (false, String d1 t)) as ->.
    { destruct d1 as [[] [] [] [] [] [] [] []]; done. }
    rewrite Hskip. by destruct (int16_digits false (String d1 t) 0).
  - rewrite Hskip. by destruct (int16_digits false s 0).
Qed.

Lemma int16_format_x (v : Z) : int16 (format_x v) = Some v.
Proof.
  unfold format_x.
  destruct (int16_no_prefix (hex_digits (Z.abs v))) as [Hpos Hneg];
    [apply hex_digits_is_hex|].
  rewrite int16_digits_hex_digits in Hpos, Hneg by lia.
  destruct (sign_of_abs v) as [(_ & -> & Hv)|(_ & -> & Hv)]; str_norm.
  - rewrite Hneg. simpl. by rewrite <- Hv.
  - by rewrite Hpos, <- Hv.
Qed.

(** Like [str_norm], for literals that are themselves concatenated. *)
Ltac str_flat := repeat (rewrite str_app_cons || rewrite str_app_nil_l).

Lemma int16_format_hash_010x (v : Z) : int16 (format_hash_010x v) = Some v.
Proof.
  unfold format_hash_010x.
  set (k := (10 - String.length (sign_of v +:+ "0x")
               - String.length (hex_digits (Z.abs v)))%nat).
  destruct (int16_0x (zeros k +:+ hex_digits (Z.abs v)) (Z.abs v)) as [Hpos Hneg].
  { by rewrite all_chars_app, zeros_is_hex, hex_digits_is_hex. }
  { rewrite int16_digits_zeros. apply int16_digits_hex_digits. lia. }
  clearbody k.
  destruct (sign_of_abs v) as [(_ & -> & Hv)|(_ & -> & Hv)]; str_flat.
  - by rewrite Hneg, <- Hv.
  - by rewrite Hpos, <- Hv.
Qed.

(** X5. In the node that the overlay emitter writes for a record, the
    unit address after [partition@] and the two cells of [reg] are
    hexadecimal texts of the record's start, start and size: read with
    [int(_, 16)] they give these numbers back, for every integer, also
    beyond 32 bits and below zero. The unit address and the first cell
    therefore always agree. *)
Theorem overlay_numbers_read_back (r : partition_info) :
  int16 (format_x (start r)) = Some (start r) /\
  int16 (format_hash_010x (start r)) = Some (start r) /\
  int16 (format_hash_010x (size r)) = Some (size r) /\
  overlay_node r !! 0%nat =
    Some (TAB +:+ TAB +:+ partition_node_name r +:+ ": partition@"
            +:+ format_x (start r) +:+ " {" +:+ LF) /\
  overlay_node r !! 2%nat =
    Some (TAB +:+ TAB +:+ TAB +:+ "reg = <" +:+ format_hash_010x (start r) +:+ " "
            +:+ format_hash_010x (size r) +:+ ">;" +:+ LF).
Proof.
  by rewrite int16_format_x, !int16_format_hash_010x.
Qed.

(** ** Names in the emitted files *)

Lemma partition_node_name_inj (r1 r2 : partition_info) :
  partition_node_name r1 = partition_node_name r2 -> name r1 = name r2.
Proof. apply str_app_inv_tail. Qed.

(** X6. Records with pairwise different names get pairwise different
    node names in the overlay. *)
Theorem overlay_node_names_distinct (rs : list partition_info) :
  NoDup (map name rs) -> NoDup (map partition_node_name rs).
Proof.
  induction rs as [|r rs IH]; simpl; [constructor|].
  intros [Hr Hrs]%NoDup_cons. apply NoDup_cons. split; [|by apply IH].
  intros (r' & Heq & Hin)%list_elem_of_fmap. apply Hr.
  apply list_elem_of_fmap. exists r'. split; [|done].
  by apply partition_node_name_inj.
Qed.

Example overlay_node_names_distinct_witness :
  NoDup (map partition_node_name
           [PartitionInfo "slot0" 0 16 16; PartitionInfo "slot1" 16 32 16]).
Proof.
  apply (overlay_node_names_distinct
           [PartitionInfo "slot0" 0 16 16; PartitionInfo "slot1" 16 32 16]).
  apply NoDup_cons. split; [|apply NoDup_singleton].
  intros Hin%list_elem_of_singleton. discriminate Hin.
Defined.

(** X7. The partition-manager names of two different partition names
    are different, provided neither of them is itself one of the four
    names that the table produces for slot0, slot1, scratch and
    storage; a partition that is called mcuboot_primary, say, shares
    its block name with slot0. *)
Theorem get_pm_static_name_inj (n1 n2 : string) :
  n1 ∉ ["mcuboot_primary"; "mcuboot_secondary"; "mcuboot_scratch"; "settings_storage"] ->
  n2 ∉ ["mcuboot_primary"; "mcuboot_secondary"; "mcuboot_scratch"; "settings_storage"] ->
  get_pm_static_name n1 = get_pm_static_name n2 ->
  n1 = n2.
Proof.
  intros H1 H2. rewrite !get_pm_static_name_cases.
  repeat case_decide; subst; try done; intros Heq; subst;
    exfalso; (apply H1 || apply H2); set_solver.
Qed.

Example get_pm_static_name_inj_witness : ("slot0" : string) = "slot0".
Proof.
  apply (get_pm_static_name_inj "slot0" "slot0"); [| |reflexivity];
    intros Hin; repeat (apply elem_of_cons in Hin as [Hin|Hin]; [discriminate Hin|]);
    by apply elem_of_nil in Hin.
Defined.

Example get_pm_static_name_collision :
  get_pm_static_name "slot0" = get_pm_static_name "mcuboot_primary".
Proof. by rewrite !get_pm_static_name_cases. Qed.

(** ** Backups *)

Lemma create_backup_files_eq (fs : gmap string string) :
  create_backup_files fs =
    let fs1 :=
      match fs !! "pm_static.yml" with
      | Some content =>
          match fs !! "pm_static.yml.backup" with
          | None => <["pm_static.yml.backup" := content]> (delete "pm_static.yml" fs)
          | Some _ => fs
          end
      | None => fs
      end in
    match fs1 !! "app.overlay" with
    | Some content =>
        match fs1 !! "app.overlay.backup" with
        | None => <["app.overlay.backup" := content]> (delete "app.overlay" fs1)
        | Some _ => fs1
        end
    | None => fs1
    end.
Proof. reflexivity. Qed.

(** Splits on the four entries that [create_backup_files] looks at. *)
Ltac backup_cases fs :=
  rewrite (create_backup_files_eq fs); cbv zeta;
  destruct (fs !! "pm_static.yml") eqn:?;
  destruct (fs !! "pm_static.yml.backup") eqn:?;
  destruct (fs !! "app.overlay") eqn:?;
  destruct (fs !! "app.overlay.backup") eqn:?;
  simplify_map_eq; try done.

Lemma create_backup_files_pm (fs : gmap string string) :
  create_backup_files fs !! "pm_static.yml.backup" =
    match fs !! "pm_static.yml.backup" with
    | Some b => Some b
    | None => fs !! "pm_static.yml"
    end /\
  create_backup_files fs !! "pm_static.yml" =
    match fs !! "pm_static.yml.backup" with
    | Some _ => fs !! "pm_static.yml"
    | None => None
    end.
Proof. split; backup_cases fs. Qed.

Lemma create_backup_files_overlay (fs : gmap string string) :
  create_backup_files fs !! "app.overlay.backup" =
    match fs !! "app.overlay.backup" with
    | Some b => Some b
    | None => fs !! "app.overlay"
    end /\
  create_backup_files fs !! "app.overlay" =
    match fs !! "app.overlay.backup" with
    | Some _ => fs !! "app.overlay"
    | None => None
    end.
Proof. split; backup_cases fs. Qed.

Lemma create_backup_files_other (fs : gmap string string) (k : string) :
  k <> "pm_static.yml" -> k <> "pm_static.yml.backup" ->
  k <> "app.overlay" -> k <> "app.overlay.backup" ->
  create_backup_files fs !! k = fs !! k.
Proof. intros ? ? ? ?. backup_cases fs. Qed.

(** X8. For each of the two files, [create_backup_files] leaves a
    backup that exists as it is, and otherwise makes the file, if there
    is one, the backup: an existing backup is never overwritten, and a
    content that has no backup yet is never lost. *)
Theorem create_backup_files_backup (fs : gmap string string) (f : string) :
  f = "pm_static.yml" \/ f = "app.overlay" ->
  create_backup_files fs !! (f +:+ ".backup") =
    match fs !! (f +:+ ".backup") with
    | Some b => Some b
    | None => fs !! f
    end.
Proof.
  intros [-> | ->].
  - apply create_backup_files_pm.
  - apply create_backup_files_overlay.
Qed.

Example create_backup_files_backup_witness :
  create_backup_files (<["app.overlay" := "old"]> ∅) !! ("app.overlay" +:+ ".backup") =
    match (<["app.overlay" := "old"]> ∅ : gmap string string)
            !! ("app.overlay" +:+ ".backup") with
    | Some b => Some b
    | None => (<["app.overlay" := "old"]> ∅ : gmap string string) !! "app.overlay"
    end.
Proof.
  apply (create_backup_files_backup (<["app.overlay" := "old"]> ∅) "app.overlay").
  right. reflexivity.
Defined.

(** X9. After [create_backup_files] each of the two files is still in
    place only if its backup existed before; a file whose backup name
    was free has been renamed away. Files under any other name are
    untouched. *)
Theorem create_backup_files_file (fs : gmap string string) :
  (forall f, f = "pm_static.yml" \/ f = "app.overlay" ->
     create_backup_files fs !! f =
       match fs !! (f +:+ ".backup") with
       | Some _ => fs !! f
       | None => None
       end) /\
  (forall k, k ∉ ["pm_static.yml"; "pm_static.yml.backup";
                  "app.overlay"; "app.overlay.backup"] ->
     create_backup_files fs !! k = fs !! k).
Proof.
  split.
  - intros f [-> | ->].
    + apply create_backup_files_pm.
    + apply create_backup_files_overlay.
  - intros k Hk. apply create_backup_files_other; intros ->; apply Hk; set_solver.
Qed.

Example create_backup_files_file_witness :
  create_backup_files (<["app.overlay" := "old"]> ∅) !! "app.overlay" =
    match (<["app.overlay" := "old"]> ∅ : gmap string string)
            !! ("app.overlay" +:+ ".backup") with
    | Some _ => (<["app.overlay" := "old"]> ∅ : gmap string string) !! "app.overlay"
    | None => None
    end.
Proof.
  destruct (create_backup_files_file (<["app.overlay" := "old"]> ∅)) as [Hfile _].
  apply Hfile. right. reflexivity.
Defined.

(** X10. Running [create_backup_files] a second time changes nothing. *)
Theorem create_backup_files_idempotent (fs : gmap string string) :
  create_backup_files (create_backup_files fs) = create_backup_files fs.
Proof.
  apply map_eq. intros k.
  destruct (create_backup_files_pm fs) as [Hpb Hp].
  destruct (create_backup_files_overlay fs) as [Hob Ho].
  destruct (create_backup_files_pm (create_backup_files fs)) as [Hpb' Hp'].
  destruct (create_backup_files_overlay (create_backup_files fs)) as [Hob' Ho'].
  destruct (decide (k = "pm_static.yml")) as [->|?].
  { rewrite Hp', Hpb, Hp. by repeat case_match. }
  destruct (decide (k = "pm_static.yml.backup")) as [->|?].
  { rewrite Hpb', Hpb, Hp. by repeat case_match. }
  destruct (decide (k = "app.overlay")) as [->|?].
  { rewrite Ho', Hob, Ho. by repeat case_match. }
  destruct (decide (k = "app.overlay.backup")) as [->|?].
  { rewrite Hob', Hob, Ho. by repeat case_match. }
  by rewrite !create_backup_files_other.
Qed.

(** ** Runs of [main] *)

(** The layout of the built-in configuration. *)
Lemma main_eq (fs : gmap string string) :
  calculate_partitions FLASH_SIZE partitions = Ok (tile 0 partitions) /\
  main fs =
    Ok (update_app_overlay (tile 0 partitions)
          (update_pm_static_yml (tile 0 partitions) (create_backup_files fs))).
Proof. split; reflexivity. Qed.

Lemma emitters_lookup (rs : list partition_info) (m : gmap string string) (k : string) :
  update_app_overlay rs (update_pm_static_yml rs m) !! k =
    if decide (k = "app.overlay") then Some (overlay_content rs)
    else if decide (k = "pm_static.yml") then Some (pm_static_content rs)
    else m !! k.
Proof.
  unfold update_app_overlay, update_pm_static_yml.
  repeat case_decide; subst; by simplify_map_eq.
Qed.

(** X11. [main] always completes. Afterwards the two files hold the
    texts generated from the built-in layout; for each of them the
    backup is the one that existed before, or else the previous file;
    and no other file has changed. *)
Theorem main_effect (fs : gmap string string) :
  exists layout fs',
    calculate_partitions FLASH_SIZE partitions = Ok layout /\
    main fs = Ok fs' /\
    fs' !! "pm_static.yml" = Some (pm_static_content layout) /\
    fs' !! "app.overlay" = Some (overlay_content layout) /\
    fs' !! "pm_static.yml.backup" =
      match fs !! "pm_static.yml.backup" with
      | Some b => Some b
      | None => fs !! "pm_static.yml"
      end /\
    fs' !! "app.overlay.backup" =
      match fs !! "app.overlay.backup" with
      | Some b => Some b
      | None => fs !! "app.overlay"
      end /\
    (forall k, k ∉ ["pm_static.yml"; "pm_static.yml.backup";
                    "app.overlay"; "app.overlay.backup"] ->
       fs' !! k = fs !! k).
Proof.
  destruct (main_eq fs) as [Hcalc Hmain].
  eexists _, _. split; [exact Hcalc|]. split; [exact Hmain|].
  rewrite !emitters_lookup. simpl.
  split; [done|]. split; [done|].
  split; [apply create_backup_files_pm|].
  split; [apply create_backup_files_overlay|].
  intros k Hk. rewrite emitters_lookup.
  rewrite !decide_False by (intros ->; apply Hk; set_solver).
  apply create_backup_files_other; intros ->; apply Hk; set_solver.
Qed.

(** The theorem at an empty directory: a file that is not there is
    still not there. *)
Example main_effect_witness :
  exists fs' : gmap string string, main ∅ = Ok fs' /\ fs' !! "README" = None.
Proof.
  destruct (main_effect ∅) as (layout & fs' & _ & Hmain & _ & _ & _ & _ & Hother).
  exists fs'. split; [exact Hmain|].
  rewrite Hother; [apply lookup_empty|].
  intros Hin; repeat (apply elem_of_cons in Hin as [Hin|Hin]; [discriminate Hin|]);
    by apply elem_of_nil in Hin.
Defined.

(** X12. From the second run on, [main] changes nothing: the result of
    a third run is the result of the second. *)
Theorem main_stable_after_two_runs (fs fs1 fs2 : gmap string string) :
  main fs = Ok fs1 ->
  main fs1 = Ok fs2 ->
  main fs2 = Ok fs2.
Proof.
  intros Hrun1 Hrun2.
  destruct (main_eq fs) as [_ E1]. destruct (main_eq fs1) as [_ E2].
  destruct (main_eq fs2) as [_ ->]. f_equal.
  set (L := tile 0 partitions) in *.
  assert (fs1 = update_app_overlay L (update_pm_static_yml L (create_backup_files fs)))
    as Hfs1 by congruence.
  assert (fs2 = update_app_overlay L (update_pm_static_yml L (create_backup_files fs1)))
    as Hfs2 by congruence.
  clear Hrun1 Hrun2 E1 E2.
  assert (fs1 !! "pm_static.yml" = Some (pm_static_content L)) as H1p
    by (by rewrite Hfs1, emitters_lookup).
  assert (fs1 !! "app.overlay" = Some (overlay_content L)) as H1o
    by (by rewrite Hfs1, emitters_lookup).
  assert (is_Some (fs2 !! "pm_static.yml.backup")) as [bp H2pb].
  { rewrite Hfs2, emitters_lookup. simpl.
    destruct (create_backup_files_pm fs1) as [-> _]. rewrite H1p.
    destruct (fs1 !! "pm_static.yml.backup"); eauto. }
  assert (is_Some (fs2 !! "app.overlay.backup")) as [bo H2ob].
  { rewrite Hfs2, emitters_lookup. simpl.
    destruct (create_backup_files_overlay fs1) as [-> _]. rewrite H1o.
    destruct (fs1 !! "app.overlay.backup"); eauto. }
  assert (fs2 !! "pm_static.yml" = Some (pm_static_content L)) as H2p
    by (by rewrite Hfs2, emitters_lookup).
  assert (fs2 !! "app.overlay" = Some (overlay_content L)) as H2o
    by (by rewrite Hfs2, emitters_lookup).
  clear Hfs1 Hfs2. apply map_eq. intros k. rewrite emitters_lookup.
  destruct (decide (k = "app.overlay")) as [->|?]; [by rewrite H2o|].
  destruct (decide (k = "pm_static.yml")) as [->|?]; [by rewrite H2p|].
  destruct (decide (k = "pm_static.yml.backup")) as [->|?].
  { destruct (create_backup_files_pm fs2) as [-> _]. by rewrite H2pb. }
  destruct (decide (k = "app.overlay.backup")) as [->|?].
  { destruct (create_backup_files_overlay fs2) as [-> _]. by rewrite H2ob. }
  by apply create_backup_files_other.
Qed.

Example main_stable_after_two_runs_witness :
  exists fs1 fs2 : gmap string string,
    main ∅ = Ok fs1 /\ main fs1 = Ok fs2 /\ main fs2 = Ok fs2.
Proof.
  destruct (main_eq ∅) as [_ H1].
  destruct (main_eq (update_app_overlay (tile 0 partitions)
                       (update_pm_static_yml (tile 0 partitions)
                          (create_backup_files ∅)))) as [_ H2].
  eexists _, _. split; [exact H1|]. split; [exact H2|].
  exact (main_stable_after_two_runs _ _ _ H1 H2).
Defined.

(** X13. One run is not always enough for that: in a directory that
    has neither [pm_static.yml] nor its backup, the first run leaves no
    backup, and the second run makes the file generated by the first
    the backup. *)
Theorem main_second_run_backs_up_generated (fs fs1 fs2 : gmap string string) :
  fs !! "pm_static.yml" = None ->
  fs !! "pm_static.yml.backup" = None ->
  main fs = Ok fs1 ->
  main fs1 = Ok fs2 ->
  fs1 !! "pm_static.yml.backup" = None /\
  fs2 !! "pm_static.yml.backup" = Some (pm_static_content (tile 0 partitions)) /\
  fs1 <> fs2.
Proof.
  intros Hp Hpb Hrun1 Hrun2.
  destruct (main_eq fs) as [_ E1]. destruct (main_eq fs1) as [_ E2].
  set (L := tile 0 partitions) in *.
  assert (fs1 = update_app_overlay L (update_pm_static_yml L (create_backup_files fs)))
    as Hfs1 by congruence.
  assert (fs2 = update_app_overlay L (update_pm_static_yml L (create_backup_files fs1)))
    as Hfs2 by congruence.
  clear Hrun1 Hrun2 E1 E2.
  assert (fs1 !! "pm_static.yml.backup" = None) as H1.
  { rewrite Hfs1, emitters_lookup. simpl.
    destruct (create_backup_files_pm fs) as [-> _]. by rewrite Hpb. }
  assert (fs2 !! "pm_static.yml.backup" = Some (pm_static_content L)) as H2.
  { rewrite Hfs2, emitters_lookup. simpl.
    destruct (create_backup_files_pm fs1) as [-> _]. rewrite H1.
    by rewrite Hfs1, emitters_lookup. }
  split; [done|]. split; [done|].
  intros Heq. rewrite <- Heq in H2. by rewrite H1 in H2.
Qed.

Example main_second_run_backs_up_generated_witness :
  exists fs1 fs2 : gmap string string,
    main ∅ = Ok fs1 /\ main fs1 = Ok fs2 /\
    fs1 !! "pm_static.yml.backup" = None /\
    fs2 !! "pm_static.yml.backup" = Some (pm_static_content (tile 0 partitions)) /\
    fs1 <> fs2.
Proof.
  destruct (main_eq ∅) as [_ H1].
  destruct (main_eq (update_app_overlay (tile 0 partitions)
                       (update_pm_static_yml (tile 0 partitions)
                          (create_backup_files ∅)))) as [_ H2].
  eexists _, _. split; [exact H1|]. split; [exact H2|].
  exact (main_second_run_backs_up_generated ∅ _ _
           (lookup_empty _) (lookup_empty _) H1 H2).
Defined.

(** ** The printed table *)

Lemma print_rows (rs : list partition_info) (printed : list string) :
  foldl (fun printed partition => printed ++ [layout_row partition]) printed rs =
    printed ++ map layout_row rs.
Proof.
  revert printed. induction rs as [|r rs IH]; intros printed; simpl.
  - by rewrite app_nil_r.
  - by rewrite IH, <- app_assoc.
Qed.

Lemma print_total_used (rs : list partition_info) (acc : Z) :
  foldl (fun acc p => acc + size p) acc rs =
    acc + sum_sizes (map (fun r => (name r, size r)) rs).
Proof.
  revert acc. induction rs as [|r rs IH]; intros acc.
  - unfold sum_sizes. simpl. lia.
  - change (foldl (fun acc p => acc + size p) acc (r :: rs))
      with (foldl (fun acc p => acc + size p) (acc + size r) rs).
    rewrite IH. unfold sum_sizes. simpl. lia.
Qed.

Lemma print_partition_layout_eq (rs : list partition_info) (flash_size : Z) :
  let total_used := sum_sizes (map (fun r => (name r, size r)) rs) in
  let remaining := flash_size - total_used in
  print_partition_layout rs flash_size =
    [ "Flash Size: " +:+ format_hash_x flash_size +:+ " (" +:+ str_int flash_size +:+ " bytes)";
      rule;
      ljust 20 "Partition" +:+ " " +:+ ljust 12 "Start" +:+ " " +:+ ljust 12 "End" +:+ " "
        +:+ ljust 12 "Size" +:+ " " +:+ ljust 10 "Size (KB)";
      rule ] ++ map layout_row rs ++
    (if remaining >? 0 then
       [ rule;
         ljust 20 "UNUSED" +:+ " " +:+ format_hash_010x total_used +:+ "   "
           +:+ format_hash_010x flash_size +:+ "   "
           +:+ format_hash_010x remaining +:+ "   " +:+ str_int (remaining / 1024) +:+ "KB" ]
     else []).
Proof.
  intros total_used remaining. unfold print_partition_layout.
  rewrite print_rows, print_total_used, Z.add_0_l.
  fold total_used. fold remaining.
  destruct (remaining >? 0); [by rewrite <- app_assoc | by rewrite app_nil_r].
Qed.

(** X14. [print_partition_layout] prints four header lines, then one
    row per record in the order of the records, and after them a rule
    and an UNUSED row exactly when the sizes of the records sum to
    less than the flash size; when they sum to more, nothing is said. *)
Theorem print_partition_layout_rows (rs : list partition_info) (flash_size : Z) :
  length (print_partition_layout rs flash_size) =
    (4 + length rs +
       (if (sum_sizes (map (fun r => (name r, size r)) rs) <? flash_size)%Z
        then 2 else 0))%nat /\
  (forall (i : nat) r,
      rs !! i = Some r ->
      print_partition_layout rs flash_size !! (4 + i)%nat = Some (layout_row r)).
Proof.
  rewrite print_partition_layout_eq. cbv zeta.
  set (total := sum_sizes (map (fun r => (name r, size r)) rs)).
  assert ((flash_size - total >? 0) = (total <? flash_size)) as ->.
  { destruct (Z.gtb_spec (flash_size - total) 0), (Z.ltb_spec total flash_size); lia. }
  split.
  - rewrite !length_app, length_map. simpl. by destruct (total <? flash_size).
  - intros i r Hi.
    rewrite lookup_app_r by (simpl; lia).
    change (length [?a; ?b; ?c; ?d]) with 4%nat.
    replace (4 + i - 4)%nat with i by lia.
    rewrite lookup_app_l by (rewrite length_map; by eapply lookup_lt_Some).
    by rewrite list_lookup_fmap, Hi.
Qed.

Example print_partition_layout_rows_witness :
  print_partition_layout [PartitionInfo "a" 0 600 600] 1024 !! (4 + 0)%nat =
    Some (layout_row (PartitionInfo "a" 0 600 600)).
Proof.
  destruct (print_partition_layout_rows [PartitionInfo "a" 0 600 600] 1024) as [_ Hrow].
  apply Hrow. reflexivity.
Defined.

(** X15. When the table is printed for a layout that
    [calculate_partitions] returned for the same flash size, the last
    record never ends beyond the flash; the UNUSED row is printed
    exactly when it ends before, and then runs from the end of the
    last record to the flash size. *)
Theorem print_partition_layout_unused (flash_size : Z)
    (requests : list (string * Z)) (records : list partition_info) (r : partition_info) :
  calculate_partitions flash_size requests = Ok records ->
  last records = Some r ->
  end_ r <= flash_size /\
  print_partition_layout records flash_size =
    [ "Flash Size: " +:+ format_hash_x flash_size +:+ " (" +:+ str_int flash_size +:+ " bytes)";
      rule;
      ljust 20 "Partition" +:+ " " +:+ ljust 12 "Start" +:+ " " +:+ ljust 12 "End" +:+ " "
        +:+ ljust 12 "Size" +:+ " " +:+ ljust 10 "Size (KB)";
      rule ] ++ map layout_row records ++
    (if end_ r <? flash_size then
       [ rule;
         ljust 20 "UNUSED" +:+ " " +:+ format_hash_010x (end_ r) +:+ "   "
           +:+ format_hash_010x flash_size +:+ "   "
           +:+ format_hash_010x (flash_size - end_ r) +:+ "   "
           +:+ str_int ((flash_size - end_ r) / 1024) +:+ "KB" ]
     else []).
Proof.
  unfold calculate_partitions.
  intros [Hall ->]%calculate_partitions_loop_ok. simpl app. intros Hlast.
  pose proof (tile_last _ _ _ Hlast) as Hend. rewrite Z.add_0_l in Hend.
  assert (requests <> []) as Hne by (by intros ->).
  assert (end_ r <= flash_size) as Hle.
  { assert (0 < length requests)%nat as Hlen by (destruct requests; [done | simpl; lia]).
    specialize (Hall (length requests) ltac:(lia)).
    rewrite firstn_all in Hall. lia. }
  split; [done|].
  rewrite print_partition_layout_eq. cbv zeta.
  rewrite tile_requests, <- Hend.
  assert ((flash_size - end_ r >? 0) = (end_ r <? flash_size)) as ->; [|done].
  destruct (Z.gtb_spec (flash_size - end_ r) 0), (Z.ltb_spec (end_ r) flash_size); lia.
Qed.

Example print_partition_layout_unused_witness :
  end_ (PartitionInfo "b" 600 1000 400) <= 1024 /\
  print_partition_layout
    [PartitionInfo "a" 0 600 600; PartitionInfo "b" 600 1000 400] 1024 =
    [ "Flash Size: " +:+ format_hash_x 1024 +:+ " (" +:+ str_int 1024 +:+ " bytes)";
      rule;
      ljust 20 "Partition" +:+ " " +:+ ljust 12 "Start" +:+ " " +:+ ljust 12 "End" +:+ " "
        +:+ ljust 12 "Size" +:+ " " +:+ ljust 10 "Size (KB)";
      rule ] ++
    map layout_row [PartitionInfo "a" 0 600 600; PartitionInfo "b" 600 1000 400] ++
    (if end_ (PartitionInfo "b" 600 1000 400) <? 1024 then
       [ rule;
         ljust 20 "UNUSED" +:+ " "
           +:+ format_hash_010x (end_ (PartitionInfo "b" 600 1000 400)) +:+ "   "
           +:+ format_hash_010x 1024 +:+ "   "
           +:+ format_hash_010x (1024 - end_ (PartitionInfo "b" 600 1000 400)) +:+ "   "
           +:+ str_int ((1024 - end_ (PartitionInfo "b" 600 1000 400)) / 1024) +:+ "KB" ]
     else []).
Proof.
  apply (print_partition_layout_unused 1024 [("a", 600); ("b", 400)]
           [PartitionInfo "a" 0 600 600; PartitionInfo "b" 600 1000 400]).
  - reflexivity.
  - reflexivity.
Defined.

(** ** What the reader of [pm_static.yml] returns *)

Lemma dict_set_keys {V : Type} (d : list (string * V)) (k : string) (v : V) (k' : string) :
  k' ∈ (AnalyzeFlash.dict_set d k v).*1 <-> k' = k \/ k' ∈ d.*1.
Proof.
  induction d as [|[k0 v0] d IH]; simpl.
  - rewrite list_elem_of_singleton. split; [by left | by intros [?|?%elem_of_nil]].
  - case_decide; subst; simpl; rewrite !elem_of_cons, ?IH; tauto.
Qed.

Lemma dict_set_NoDup {V : Type} (d : list (string * V)) (k : string) (v : V) :
  NoDup d.*1 -> NoDup (AnalyzeFlash.dict_set d k v).*1.
Proof.
  induction d as [|[k0 v0] d IH]; simpl.
  - intros _. apply NoDup_singleton.
  - intros [Hk0 Hd]%NoDup_cons. case_decide; subst; simpl.
    + by apply NoDup_cons.
    + apply NoDup_cons. split; [|by apply IH].
      rewrite dict_set_keys. intros [?|?]; [congruence | done].
Qed.

Lemma dict_set_Forall {V : Type} (P : string * V -> Prop)
    (d : list (string * V)) (k : string) (v : V) :
  Forall P d -> P (k, v) -> Forall P (AnalyzeFlash.dict_set d k v).
Proof.
  intros Hd Hkv. induction Hd as [|[k0 v0] d Hp Hd IH]; simpl.
  - by constructor.
  - case_decide; constructor; auto.
Qed.

(** What the loop keeps true of the dictionary, and which names it
    adds to it. *)
Lemma reader_loop_spec (lines : list string) :
  forall st,
    NoDup (AnalyzeFlash.partitions st).*1 ->
    Forall (fun p => p.2 = ∅) (AnalyzeFlash.partitions st) ->
    exists st',
      AnalyzeFlash.reader_loop st lines = Some st' /\
      NoDup (AnalyzeFlash.partitions st').*1 /\
      Forall (fun p => p.2 = ∅) (AnalyzeFlash.partitions st') /\
      forall n,
        n ∈ (AnalyzeFlash.partitions st').*1 <->
        n ∈ (AnalyzeFlash.partitions st).*1 \/
        exists line,
          line ∈ lines /\
          strip line <> "" /\
          startswith (strip line) "#" = false /\
          contains ":" (strip line) = true /\
          n = AnalyzeFlash.header_name (strip line).
Proof.
  induction lines as [|line lines IH]; intros st Hnd Hempty.
  - exists st. repeat split; [done..| |].
    + by left.
    + intros [?|(line & []%elem_of_nil & _)]. done.
  - simpl. rewrite reader_step_eq.
    destruct (negb (bool_decide (strip line = ""))) eqn:Hne;
      destruct (startswith (strip line) "#") eqn:Hhash;
      destruct (contains ":" (strip line)) eqn:Hcolon; simpl;
      try (destruct (IH st Hnd Hempty) as (st' & -> & Hnd' & Hempty' & Hkeys);
           exists st'; repeat split; [done..| |];
           [ intros [?|(l & Hl & ?)]%Hkeys; [by left|];
             right; exists l; split; [by apply elem_of_cons; right | done]
           | intros [?|(l & [->|Hl]%elem_of_cons & Hl1 & Hl2 & Hl3 & ->)];
             apply Hkeys; [by left | | right; by exists l];
             first [ congruence
                   | apply negb_false_iff, bool_decide_eq_true in Hne; congruence ] ]).
    apply negb_true_iff, bool_decide_eq_false in Hne.
    set (st1 := AnalyzeFlash.ReaderState _ _).
    destruct (IH st1) as (st' & -> & Hnd' & Hempty' & Hkeys).
    { by apply dict_set_NoDup. }
    { by apply dict_set_Forall. }
    exists st'. repeat split; [done..| |].
    + intros [[->|?]%dict_set_keys|(l & Hl & ?)]%Hkeys.
      * right. exists line. split; [by apply elem_of_cons; left | done].
      * by left.
      * right. exists l. split; [by apply elem_of_cons; right | done].
    + intros [?|(l & [->|Hl]%elem_of_cons & Hl1 & Hl2 & Hl3 & ->)]; apply Hkeys.
      * left. apply dict_set_keys. by right.
      * left. apply dict_set_keys. by left.
      * right. by exists l.
Qed.

(** X16. Whatever ASCII text [pm_static.yml] holds,
    [analyze_partition_usage] returns a dictionary and never fails on a
    malformed number, because it never reads one: every partition it
    returns has no address, no end address and no size. Without the
    file it returns nothing. *)
Theorem analyze_partition_usage_reads_no_field (fs : gmap string string) :
  (fs !! "pm_static.yml" = None -> AnalyzeFlash.analyze_partition_usage fs = None) /\
  (forall text,
      fs !! "pm_static.yml" = Some text ->
      ascii_text text ->
      exists parts,
        AnalyzeFlash.analyze_partition_usage fs = Some parts /\
        Forall (fun p => p.2 = ∅) parts /\
        Forall (fun t => t.1.1.2 = None /\ t.1.2 = None /\ t.2 = None)
          (AnalyzeFlash.recovered parts)).
Proof.
  unfold AnalyzeFlash.analyze_partition_usage. split; [by intros ->|].
  intros text -> _.
  destruct (reader_loop_spec (readlines text) (AnalyzeFlash.ReaderState None []))
    as (st' & -> & _ & Hempty & _); [constructor | constructor |].
  exists (AnalyzeFlash.partitions st'). split; [done|]. split; [done|].
  unfold AnalyzeFlash.recovered. apply Forall_fmap.
  eapply Forall_impl; [exact Hempty|]. intros [n info] Hinfo. simpl in *.
  by rewrite Hinfo, !lookup_empty.
Qed.

(** The theorem at a file with a header and a size line that ends in a
    carriage return and a line feed. *)
Example analyze_partition_usage_reads_no_field_witness :
  exists parts,
    AnalyzeFlash.analyze_partition_usage
      (<["pm_static.yml" := "app:" +:+ LF +:+ "  size: 0x10" +:+ String "013" LF]> ∅)
      = Some parts /\
    Forall (fun p => p.2 = ∅) parts /\
    Forall (fun t => t.1.1.2 = None /\ t.1.2 = None /\ t.2 = None)
      (AnalyzeFlash.recovered parts).
Proof.
  destruct (analyze_partition_usage_reads_no_field
              (<["pm_static.yml" := "app:" +:+ LF +:+ "  size: 0x10" +:+ String "013" LF]> ∅))
    as [_ Hfile].
  apply (Hfile ("app:" +:+ LF +:+ "  size: 0x10" +:+ String "013" LF)).
  - apply lookup_insert_eq.
  - reflexivity.
Defined.

(** X17. For a [pm_static.yml] that holds ASCII text, the names in the
    dictionary that [analyze_partition_usage] returns are, without
    repetition, the lines of the file (ended by a line feed, a carriage
    return or both) that, once stripped, are not empty, do not start
    with [#] and contain a colon, each without its trailing colons:
    indented field lines count as names like any other line. *)
Theorem analyze_partition_usage_names (fs : gmap string string) (text : string)
    (parts : list (string * gmap string Z)) :
  fs !! "pm_static.yml" = Some text ->
  ascii_text text ->
  AnalyzeFlash.analyze_partition_usage fs = Some parts ->
  NoDup parts.*1 /\
  forall n,
    n ∈ parts.*1 <->
    exists line,
      line ∈ readlines text /\
      strip line <> "" /\
      startswith (strip line) "#" = false /\
      contains ":" (strip line) = true /\
      n = AnalyzeFlash.header_name (strip line).
Proof.
  unfold AnalyzeFlash.analyze_partition_usage. intros -> _.
  destruct (reader_loop_spec (readlines text) (AnalyzeFlash.ReaderState None []))
    as (st' & -> & Hnd & _ & Hkeys); [constructor | constructor |].
  intros [= <-]. split; [done|].
  intros n. rewrite Hkeys. simpl. split.
  - by intros [?%elem_of_nil|?].
  - by right.
Qed.

(** The theorem at a file of two lines, the first ended by a carriage
    return alone. *)
Example analyze_partition_usage_names_witness :
  NoDup [ ("mcuboot", ∅ : gmap string Z); ("address: 0x0", ∅) ].*1 /\
  forall n,
    n ∈ [ ("mcuboot", ∅ : gmap string Z); ("address: 0x0", ∅) ].*1 <->
    exists line,
      line ∈ readlines ("mcuboot:" +:+ String "013" ("  address: 0x0" +:+ LF)) /\
      strip line <> "" /\
      startswith (strip line) "#" = false /\
      contains ":" (strip line) = true /\
      n = AnalyzeFlash.header_name (strip line).
Proof.
  apply (analyze_partition_usage_names
           (<["pm_static.yml" := "mcuboot:" +:+ String "013" ("  address: 0x0" +:+ LF)]> ∅)).
  - apply lookup_insert_eq.
  - reflexivity.
  - by vm_compute.
Defined.

(** ** Intel HEX files *)

Lemma int16_hex_pair (c d : ascii) :
  is_hex c = true -> is_hex d = true ->
  int16 (String c (String d "")) = Some (hex_pair c d).
Proof.
  intros Hc Hd.
  destruct (int16_no_prefix (String c (String d ""))) as [-> _].
  { simpl. by rewrite Hc, Hd. }
  pose proof (is_hex_not_special c Hc) as (_ & _ & Hcu & _).
  pose proof (is_hex_not_special d Hd) as (_ & _ & Hdu & _).
  unfold hex_pair, is_hex in *. simpl. rewrite !decide_False by done.
  destruct (hex_value c), (hex_value d); try done.
  rewrite decide_False by done. simpl. f_equal; lia.
Qed.

Lemma substring_0_0 (s : string) : String.substring 0 0 s = "".
Proof. by destruct s. Qed.

Lemma length_4_inv (s : string) :
  String.length s = 4%nat ->
  exists a b c d, s = String a (String b (String c (String d ""))).
Proof.
  destruct s as [|a [|b [|c [|d [|e s]]]]]; try done. intros _. by exists a, b, c, d.
Qed.

Lemma hex_size_step_record (total : Z) (r : ihex_record) :
  ihex_wf r ->
  AnalyzeFlash.hex_size_step total (ihex_line r) = Some (total + ihex_data_bytes r).
Proof.
  destruct r as [[c1 c2] addr [t1 t2] rest].
  intros (Hc1 & Hc2 & Haddr & Hlen & Ht1 & Ht2 & Hrest & Hrlen). simpl in *.
  destruct (length_4_inv addr Hlen) as (a1 & a2 & a3 & a4 & ->).
  unfold AnalyzeFlash.hex_size_step, ihex_line. simpl ih_count. simpl ih_address.
  simpl ih_type. simpl ih_rest. cbv [fst snd]. str_flat.
  set (body := String ":" (String c1 (String c2 (String a1 (String a2 (String a3
                 (String a4 (String t1 (String t2 rest))))))))).
  assert (strip (body +:+ LF) = body) as Hstrip.
  { apply strip_line. unfold body. simpl in Haddr |- *.
    repeat (apply andb_prop in Haddr as [?%is_hex_not_special Haddr]).
    apply is_hex_not_special in Hc1, Hc2, Ht1, Ht2.
    destruct Hc1 as [-> _], Hc2 as [-> _], Ht1 as [-> _], Ht2 as [-> _].
    repeat match goal with H : _ /\ _ |- _ => destruct H as [-> _] end.
    simpl. by apply is_hex_nospace. }
  change (String ":" (String c1 (String c2 (String a1 (String a2 (String a3
            (String a4 (String t1 (String t2 (rest +:+ LF))))))))))
    with (body +:+ LF).
  rewrite Hstrip. unfold body.
  assert (startswith (String ":" (String c1 (String c2 (String a1 (String a2 (String a3
            (String a4 (String t1 (String t2 rest))))))))) ":" = true) as -> by done.
  assert ((11 <=? String.length (String ":" (String c1 (String c2 (String a1 (String a2
             (String a3 (String a4 (String t1 (String t2 rest))))))))))%nat = true) as ->.
  { apply Nat.leb_le. simpl. lia. }
  simpl andb. cbv iota.
  assert (String.substring 1 2 (String ":" (String c1 (String c2 (String a1 (String a2
            (String a3 (String a4 (String t1 (String t2 rest)))))))))
          = String c1 (String c2 "")) as -> by done.
  assert (String.substring 7 2 (String ":" (String c1 (String c2 (String a1 (String a2
            (String a3 (String a4 (String t1 (String t2 rest)))))))))
          = String t1 (String t2 "")) as ->.
  { simpl. by rewrite substring_0_0. }
  rewrite !int16_hex_pair by done.
  unfold ihex_data_bytes. simpl. destruct (hex_pair t1 t2 =? 0); [done|].
  by rewrite Z.add_0_r.
Qed.

Lemma ihex_line_is_line (r : ihex_record) :
  ihex_wf r ->
  exists s, ihex_line r = s +:+ LF /\ all_chars line_char s = true.
Proof.
  destruct r as [[c1 c2] addr [t1 t2] rest].
  intros (Hc1 & Hc2 & Haddr & _ & Ht1 & Ht2 & Hrest & _). simpl in *.
  exists (String ":" (String c1 (String c2 (addr +:+ String t1 (String t2 rest))))).
  split.
  - unfold ihex_line. simpl. str_flat. by rewrite str_app_assoc.
  - assert (forall s, all_chars is_hex s = true -> all_chars line_char s = true) as Hlf.
    { intros s Hs. by apply nospace_line, is_hex_nospace. }
    pose proof (Hlf (String c1 (String c2 "")) ltac:(simpl; by rewrite Hc1, Hc2)) as H12.
    pose proof (Hlf (String t1 (String t2 rest))
                  ltac:(simpl; by rewrite Ht1, Ht2, Hrest)) as Ht.
    simpl in H12. apply andb_prop in H12 as [H1 [H2 _]%andb_prop].
    simpl. rewrite H1, H2, all_chars_app, (Hlf addr Haddr), Ht. done.
Qed.

Lemma hex_size_loop_records (records : list ihex_record) :
  Forall ihex_wf records ->
  forall total,
    AnalyzeFlash.hex_size_loop total (map ihex_line records) =
      Some (total + foldr (fun r acc => ihex_data_bytes r + acc) 0 records).
Proof.
  induction 1 as [|r rs Hr _ IH]; intros total; simpl.
  - by rewrite Z.add_0_r.
  - rewrite hex_size_step_record by done. rewrite IH. f_equal. lia.
Qed.

Lemma readlines_ihex (records : list ihex_record) :
  Forall ihex_wf records ->
  readlines (join (map ihex_line records)) = map ihex_line records.
Proof.
  intros Hwf. apply readlines_join, Forall_fmap.
  eapply Forall_impl; [exact Hwf|]. intros r Hr. by apply ihex_line_is_line.
Qed.

(** X18. For a file made of well-formed Intel HEX records,
    [get_hex_size] returns the sum of the byte counts of the data
    records (type 00); records of another type add nothing, and the
    count is taken as written, whatever data and checksum follow. *)
Theorem get_hex_size_records (fs : gmap string string) (hex_path : string)
    (records : list ihex_record) :
  Forall ihex_wf records ->
  fs !! hex_path = Some (join (map ihex_line records)) ->
  AnalyzeFlash.get_hex_size fs hex_path =
    Some (foldr (fun r acc => ihex_data_bytes r + acc) 0 records).
Proof.
  intros Hwf Hfile. unfold AnalyzeFlash.get_hex_size.
  rewrite Hfile, readlines_ihex by done.
  rewrite hex_size_loop_records by done.
  by rewrite Z.add_0_l.
Qed.

(** The theorem at a data record of sixteen bytes and the end-of-file
    record. *)
Example get_hex_size_records_witness :
  AnalyzeFlash.get_hex_size
    (<["zephyr.hex" :=
         join (map ihex_line
                 [ IhexRecord ("1", "0")%char "0100" ("0", "0")%char
                     "214601360121470136007EFE09D2190140";
                   IhexRecord ("0", "0")%char "0000" ("0", "1")%char "FF" ])]> ∅)
    "zephyr.hex" =
  Some (foldr (fun r acc => ihex_data_bytes r + acc) 0
          [ IhexRecord ("1", "0")%char "0100" ("0", "0")%char
              "214601360121470136007EFE09D2190140";
            IhexRecord ("0", "0")%char "0000" ("0", "1")%char "FF" ]).
Proof.
  apply get_hex_size_records.
  - repeat constructor.
  - apply lookup_insert_eq.
Defined.

Lemma hex_size_loop_fails (lines : list string) (line : string) :
  line ∈ lines ->
  (forall total, AnalyzeFlash.hex_size_step total line = None) ->
  forall total, AnalyzeFlash.hex_size_loop total lines = None.
Proof.
  intros Hin Hbad. induction lines as [|l lines IH]; intros total.
  - by apply elem_of_nil in Hin.
  - simpl. apply elem_of_cons in Hin as [<-|Hin].
    + by rewrite Hbad.
    + destruct (AnalyzeFlash.hex_size_step total l); [by apply IH | done].
Qed.

(** X19. In a file that holds ASCII text, one record line whose count
    or type field is not a hexadecimal number makes the whole size
    unavailable: however many good records the file has,
    [get_hex_size] returns nothing. *)
Theorem get_hex_size_malformed (fs : gmap string string) (hex_path text line : string) :
  fs !! hex_path = Some text ->
  ascii_text text ->
  line ∈ readlines text ->
  startswith (strip line) ":" = true ->
  (11 <= String.length (strip line))%nat ->
  int16 (String.substring 1 2 (strip line)) = None \/
  int16 (String.substring 7 2 (strip line)) = None ->
  AnalyzeFlash.get_hex_size fs hex_path = None.
Proof.
  intros Hfile _ Hin Hcolon Hlen Hbad. unfold AnalyzeFlash.get_hex_size. rewrite Hfile.
  apply (hex_size_loop_fails _ line Hin). intros total.
  unfold AnalyzeFlash.hex_size_step. rewrite Hcolon.
  apply Nat.leb_le in Hlen. rewrite Hlen. simpl.
  destruct Hbad as [Hbad | Hbad]; rewrite Hbad; [done|].
  by destruct (int16 (String.substring 1 2 (strip line))).
Qed.

(** The theorem at a file whose second line has [0x] as its count. *)
Example get_hex_size_malformed_witness :
  AnalyzeFlash.get_hex_size
    (<["zephyr.hex" := ":0100000041BE" +:+ LF +:+ ":0x00000041BE" +:+ LF]> ∅)
    "zephyr.hex" = None.
Proof.
  apply (get_hex_size_malformed _ _
           (":0100000041BE" +:+ LF +:+ ":0x00000041BE" +:+ LF)
           (":0x00000041BE" +:+ LF)).
  - apply lookup_insert_eq.
  - reflexivity.
  - apply elem_of_cons. right. apply elem_of_cons. by left.
  - reflexivity.
  - vm_compute. lia.
  - left. reflexivity.
Defined.

(** X20. In a file that holds ASCII text, lines (ended by a line feed,
    a carriage return or both) that do not start with a colon, or that
    are shorter than eleven characters, are skipped: a file without any
    record line, an empty one included, has size 0, and a missing file
    has none. *)
Theorem get_hex_size_no_records (fs : gmap string string) (hex_path : string) :
  (fs !! hex_path = None -> AnalyzeFlash.get_hex_size fs hex_path = None) /\
  (forall text,
      fs !! hex_path = Some text ->
      ascii_text text ->
      Forall (fun line =>
                startswith (strip line) ":" = false \/
                (String.length (strip line) < 11)%nat) (readlines text) ->
      AnalyzeFlash.get_hex_size fs hex_path = Some 0).
Proof.
  unfold AnalyzeFlash.get_hex_size. split; [by intros ->|].
  intros text -> _.
  generalize 0. induction 1 as [|line lines Hline _ IH]; [done|]. simpl.
  unfold AnalyzeFlash.hex_size_step.
  destruct Hline as [-> | Hshort]; [done|].
  apply Nat.leb_gt in Hshort. rewrite Hshort, andb_false_r. done.
Qed.

(** The theorem at a file of two lines, the first ended by a carriage
    return and a line feed. *)
Example get_hex_size_no_records_witness :
  AnalyzeFlash.get_hex_size
    (<["zephyr.hex" := "not a hex file" +:+ String "013" (LF +:+ ":00" +:+ LF)]> ∅)
    "zephyr.hex" = Some 0.
Proof.
  destruct (get_hex_size_no_records
              (<["zephyr.hex" := "not a hex file" +:+ String "013" (LF +:+ ":00" +:+ LF)]> ∅)
              "zephyr.hex") as [_ Hfile].
  apply (Hfile ("not a hex file" +:+ String "013" (LF +:+ ":00" +:+ LF))).
  - apply lookup_insert_eq.
  - reflexivity.
  - apply Forall_cons_2; [left; reflexivity|].
    apply Forall_cons_2; [right; vm_compute; lia|].
    apply Forall_nil_2.
Defined.

(** ** Decimal text *)

Lemma dec_digit_value (d : Z) : 0 <= d < 10 -> dec_value (dec_digit d) = Some d.
Proof.
  intros Hd.
  assert (d = 0 \/ d = 1 \/ d = 2 \/ d = 3 \/ d = 4 \/ d = 5 \/ d = 6 \/ d = 7 \/
          d = 8 \/ d = 9) as Hcases by lia.
  repeat (destruct Hcases as [->|Hcases]; [reflexivity|]). by subst d.
Qed.

Lemma dec_value_not_special (c : ascii) (d : Z) :
  dec_value c = Some d ->
  py_isspace c = false /\ c <> "_"%char /\ c <> "-"%char /\ c <> "+"%char.
Proof.
  destruct c as [[] [] [] [] [] [] [] []]; vm_compute; intros; try discriminate;
    repeat split; discriminate.
Qed.

Lemma dec_digits_aux_nospace (fuel : nat) :
  forall n acc,
    all_chars (fun c => negb (py_isspace c)) acc = true ->
    all_chars (fun c => negb (py_isspace c)) (dec_digits_aux fuel n acc) = true.
Proof.
  induction fuel as [|fuel IH]; intros n acc Hacc; simpl; [done|].
  assert (all_chars (fun c => negb (py_isspace c))
            (String (dec_digit (n mod 10)) acc) = true) as Hacc'.
  { simpl. rewrite Hacc, andb_true_r.
    pose proof (dec_digit_value (n mod 10) ltac:(apply Z.mod_pos_bound; lia)) as Hv.
    by apply dec_value_not_special in Hv as [-> _]. }
  destruct (n / 10 =? 0); [done | by apply IH].
Qed.

Lemma dec_digits_aux_longer (fuel : nat) :
  forall n acc,
    (String.length acc < String.length (dec_digits_aux (S fuel) n acc))%nat.
Proof.
  induction fuel as [|fuel IH]; intros n acc.
  - simpl. destruct (n / 10 =? 0); simpl; lia.
  - change (dec_digits_aux (S (S fuel)) n acc)
      with (if n / 10 =? 0 then String (dec_digit (n mod 10)) acc
            else dec_digits_aux (S fuel) (n / 10) (String (dec_digit (n mod 10)) acc)).
    destruct (n / 10 =? 0); [simpl; lia|].
    specialize (IH (n / 10) (String (dec_digit (n mod 10)) acc)).
    change (String.length (String (dec_digit (n mod 10)) acc))
      with (S (String.length acc)) in IH.
    lia.
Qed.

Lemma int10_digits_dec_digits_aux (fuel : nat) :
  forall n acc b,
    0 <= n < 2 ^ Z.of_nat (S fuel) ->
    int10_digits b (dec_digits_aux (S fuel) n acc) 0 = int10_digits true acc n.
Proof.
  assert (forall n acc b, 0 <= n ->
            int10_digits b (String (dec_digit (n mod 10)) acc) (n / 10)
            = int10_digits true acc n) as Hone.
  { intros n acc b Hn. simpl.
    pose proof (dec_digit_value (n mod 10) ltac:(apply Z.mod_pos_bound; lia)) as Hv.
    pose proof (dec_value_not_special _ _ Hv) as (_ & Hus & _).
    rewrite decide_False by done. rewrite Hv.
    f_equal. pose proof (Z.div_mod n 10). lia. }
  induction fuel as [|fuel IH]; intros n acc b Hn.
  - change (2 ^ Z.of_nat 1) with 2 in Hn.
    unfold dec_digits_aux. rewrite Z.div_small by lia. simpl Z.eqb. cbv iota.
    rewrite <- (Hone n acc b) by lia. by rewrite Z.div_small by lia.
  - change (dec_digits_aux (S (S fuel)) n acc)
      with (if n / 10 =? 0 then String (dec_digit (n mod 10)) acc
            else dec_digits_aux (S fuel) (n / 10) (String (dec_digit (n mod 10)) acc)).
    destruct (Z.eqb_spec (n / 10) 0) as [Hz|Hnz].
    + rewrite <- (Hone n acc b) by lia. by rewrite Hz.
    + rewrite IH.
      * apply Hone. lia.
      * split; [apply Z.div_pos; lia|].
        apply Z.div_lt_upper_bound; [lia|].
        replace (Z.of_nat (S (S fuel))) with (1 + Z.of_nat (S fuel)) in Hn by lia.
        rewrite Z.pow_add_r in Hn by lia. lia.
Qed.

Lemma all_chars_cons (p : ascii -> bool) (c : ascii) (s : string) :
  all_chars p (String c s) = p c && all_chars p s.
Proof. reflexivity. Qed.

Lemma str_int_nospace (v : Z) :
  all_chars (fun c => negb (py_isspace c)) (str_int v) = true /\ str_int v <> "".
Proof.
  unfold str_int, dec_digits.
  pose proof (dec_digits_aux_nospace (S (Z.to_nat (Z.log2 (Z.abs v)))) (Z.abs v) ""
                eq_refl) as Hns.
  pose proof (dec_digits_aux_longer (Z.to_nat (Z.log2 (Z.abs v))) (Z.abs v) "") as Hlen.
  destruct (sign_of_abs v) as [(_ & -> & _)|(_ & -> & _)]; str_norm.
  - split; [by rewrite all_chars_cons, Hns | done].
  - split; [done|]. intros Heq. rewrite Heq in Hlen. simpl in Hlen. lia.
Qed.

(** [int(str(v)) == v] *)
Lemma int10_str_int (v : Z) : int10 (str_int v) = Some v.
Proof.
  destruct (str_int_nospace v) as [Hns _].
  unfold int10. rewrite (strip_chars_keep _ _ (nospace_int _ Hns)).
  unfold str_int, dec_digits in *.
  set (f := Z.to_nat (Z.log2 (Z.abs v))).
  pose proof (int10_digits_dec_digits_aux f (Z.abs v) "" false
                (hex_digits_fuel (Z.abs v) ltac:(lia))) as Hread.
  simpl int10_digits in Hread at 2.
  pose proof (dec_digits_aux_longer f (Z.abs v) "") as Hlen.
  destruct (sign_of_abs v) as [(_ & -> & Hv)|(_ & -> & Hv)]; str_norm.
  - rewrite Hread. by rewrite <- Hv.
  - destruct (dec_digits_aux (S f) (Z.abs v) "") as [|d ds] eqn:E;
      [simpl in Hlen; lia|].
    assert (d <> "-"%char /\ d <> "+"%char) as [Hm Hp].
    { destruct (Z.abs v / 10 =? 0) eqn:Hz.
      - simpl in E. rewrite Hz in E. injection E as <- _.
        pose proof (dec_digit_value (Z.abs v mod 10)
                      ltac:(apply Z.mod_pos_bound; lia)) as Hd.
        by apply dec_value_not_special in Hd as (_ & _ & ? & ?).
      - simpl in Hread. destruct (decide (d = "_"%char)); [done|].
        destruct (dec_value d) eqn:Hd; [|done].
        by apply dec_value_not_special in Hd as (_ & _ & ? & ?). }
    assert (match String d ds with
            | String "-" t => (true, t)
            | String "+" t => (false, t)
            | _ => (false, String d ds)
            end = (false, String d ds)) as ->.
    { destruct d as [[] [] [] [] [] [] [] []]; done. }
    rewrite Hread. by rewrite <- Hv.
Qed.

(** ** Splitting the output of the size tool *)

Lemma py_split_cons (c : ascii) (s : string) :
  py_split (String c s) =
    if py_isspace c then py_split s
    else match py_split s with
         | w :: ws =>
             if match s with String d _ => negb (py_isspace d) | "" => false end
             then String c w :: ws else String c "" :: w :: ws
         | [] => [String c ""]
         end.
Proof. reflexivity. Qed.

Lemma py_split_space (c : ascii) (s : string) :
  py_isspace c = true -> py_split (String c s) = py_split s.
Proof. intros Hc. by rewrite py_split_cons, Hc. Qed.

(** A word followed by a whitespace character is the first word. *)
Lemma py_split_word (w : string) (c : ascii) (s : string) :
  w <> "" ->
  all_chars (fun d => negb (py_isspace d)) w = true ->
  py_isspace c = true ->
  py_split (w +:+ String c s) = w :: py_split s.
Proof.
  intros Hne Hw Hc. induction w as [|a w IH]; [done|].
  simpl in Hw. apply andb_prop in Hw as [Ha Hw]. apply negb_true_iff in Ha.
  rewrite str_app_cons, py_split_cons, Ha.
  destruct w as [|b w].
  - rewrite str_app_nil_l, (py_split_space c s Hc), Hc. simpl.
    by destruct (py_split s).
  - rewrite IH by done.
    pose proof Hw as Hb. simpl in Hb. apply andb_prop in Hb as [Hb _].
    rewrite str_app_cons. by rewrite Hb.
Qed.

Lemma split_on_line (c : ascii) (a b : string) :
  all_chars (fun d => negb (bool_decide (d = c))) a = true ->
  split_on c (a +:+ String c b) = a :: split_on c b.
Proof.
  induction a as [|d a IH]; simpl.
  - intros _. rewrite ?str_app_nil_l. simpl. by rewrite decide_True.
  - intros [Hd Ha]%andb_prop. rewrite ?str_app_cons. simpl.
    apply negb_true_iff, bool_decide_eq_false in Hd.
    by rewrite decide_False, IH.
Qed.

Lemma split_on_none (c : ascii) (a : string) :
  all_chars (fun d => negb (bool_decide (d = c))) a = true ->
  split_on c a = [a].
Proof.
  induction a as [|d a IH]; simpl; [done|].
  intros [Hd Ha]%andb_prop. apply negb_true_iff, bool_decide_eq_false in Hd.
  by rewrite decide_False, IH.
Qed.

Lemma lstrip_chars_pad (drop : ascii -> bool) (pad s : string) :
  all_chars drop pad = true ->
  lstrip_chars drop (pad +:+ s) = lstrip_chars drop s.
Proof.
  induction pad as [|c pad IH]; [done|]. rewrite all_chars_cons.
  intros [Hc Hpad]%andb_prop. rewrite str_app_cons, lstrip_chars_drop by done. auto.
Qed.

Lemma spaces_isspace (k : nat) : all_chars py_isspace (spaces k) = true.
Proof. induction k as [|k IH]; [done|]. simpl spaces. by rewrite all_chars_cons, IH. Qed.

(** Leading whitespace does not count. *)
Lemma py_split_pad (pad s : string) :
  all_chars py_isspace pad = true -> py_split (pad +:+ s) = py_split s.
Proof.
  induction pad as [|c pad IH]; [done|]. rewrite all_chars_cons.
  intros [Hc Hpad]%andb_prop. rewrite str_app_cons, py_split_space by done. auto.
Qed.

(** A word at the end of the text is the last word. *)
Lemma py_split_one (w : string) :
  w <> "" ->
  all_chars (fun d => negb (py_isspace d)) w = true ->
  py_split w = [w].
Proof.
  intros Hne Hw. induction w as [|a w IH]; [done|].
  rewrite all_chars_cons in Hw. apply andb_prop in Hw as [Ha Hw].
  apply negb_true_iff in Ha. rewrite py_split_cons, Ha.
  destruct w as [|b w]; [done|].
  rewrite IH by done.
  rewrite all_chars_cons in Hw. apply andb_prop in Hw as [Hb _]. by rewrite Hb.
Qed.

Lemma rstrip_chars_all (p drop : ascii -> bool) (s : string) :
  all_chars p s = true -> all_chars p (rstrip_chars drop s) = true.
Proof.
  induction s as [|c s IH]; [done|]. rewrite all_chars_cons.
  intros [Hc Hs]%andb_prop. specialize (IH Hs). simpl.
  destruct (rstrip_chars drop s) as [|e t].
  - destruct (drop c); [done|]. by rewrite all_chars_cons, Hc.
  - by rewrite all_chars_cons, Hc, IH.
Qed.

(** What is left of a text when its end is stripped starts as the text
    does. *)
Lemma rstrip_chars_head (drop : ascii -> bool) (c : ascii) (s : string) :
  rstrip_chars drop (String c s) = "" \/
  exists t, rstrip_chars drop (String c s) = String c t.
Proof.
  simpl. destruct (rstrip_chars drop s) as [|e t].
  - destruct (drop c); [by left | right; by eexists].
  - right. by eexists.
Qed.

(** Stripping the end of a text leaves alone a part that ends in a
    word. *)
Lemma rstrip_chars_after_word (drop : ascii -> bool) (s w t : string) :
  w <> "" ->
  all_chars (fun c => negb (drop c)) w = true ->
  rstrip_chars drop ((s +:+ w) +:+ t) = (s +:+ w) +:+ rstrip_chars drop t.
Proof.
  intros Hne Hw. rewrite rstrip_chars_app.
  destruct (rstrip_chars drop t) as [|e t'] eqn:Ht; [|done].
  rewrite str_app_nil_r, rstrip_chars_app, (rstrip_chars_keep _ w Hw).
  by destruct w.
Qed.

Lemma spaces_line (k : nat) :
  all_chars (fun c => negb (bool_decide (c = "010"%char))) (spaces k) = true.
Proof. induction k as [|k IH]; [done|]. simpl spaces. by rewrite all_chars_cons, IH. Qed.

(** The table is read whatever follows the three sizes on their row. *)
Lemma parse_size_report (t d b : Z) (more filename : string) :
  all_chars (fun c => negb (bool_decide (c = "010"%char))) more = true ->
  all_chars (fun c => negb (bool_decide (c = "010"%char))) filename = true ->
  AnalyzeFlash.parse_size_output (size_report t d b more filename) =
    Some (AnalyzeFlash.ElfSize t d b (t + d) (d + b)).
Proof.
  intros Hmore Hfn.
  destruct (str_int_nospace t) as [Ht Htne].
  destruct (str_int_nospace d) as [Hd Hdne].
  destruct (str_int_nospace b) as [Hb Hbne].
  assert (forall v, all_chars (fun c => negb (bool_decide (c = "010"%char)))
                      (str_int v) = true) as Hlf.
  { intros v. eapply all_chars_impl; [|apply (str_int_nospace v)].
    intros c Hc. apply negb_true_iff, bool_decide_eq_false. by intros ->. }
  unfold AnalyzeFlash.parse_size_output, size_report, rjust.
  generalize (7 - String.length (str_int t))%nat as k1.
  generalize (7 - String.length (str_int d))%nat as k2.
  generalize (7 - String.length (str_int b))%nat as k3.
  intros k3 k2 k1.
  set (header := "ext" +:+ TAB +:+ "   data" +:+ TAB +:+ "    bss" +:+ TAB
                   +:+ "    dec" +:+ TAB +:+ "    hex" +:+ TAB +:+ "filename").
  set (row := spaces k1 +:+ str_int t +:+
                String "009" (spaces k2 +:+ str_int d +:+ String "009" (spaces k3))).
  set (tail := rstrip_chars py_isspace (String "009" (more +:+ filename))).
  (* the text once stripped *)
  assert (strip (("   text" +:+ TAB +:+ "   data" +:+ TAB +:+ "    bss" +:+ TAB
                    +:+ "    dec" +:+ TAB +:+ "    hex" +:+ TAB +:+ "filename") +:+ LF +:+
                 ((spaces k1 +:+ str_int t) +:+ TAB +:+ (spaces k2 +:+ str_int d) +:+ TAB
                    +:+ (spaces k3 +:+ str_int b) +:+ TAB +:+ more +:+ filename) +:+ LF)
          = String "t" header +:+ String "010" (row +:+ str_int b +:+ tail)) as ->.
  { unfold strip, strip_chars.
    replace (_ +:+ LF +:+ _ +:+ LF)
      with ("   " +:+ String "t" (((header +:+ String "010" row) +:+ str_int b)
                                   +:+ (String "009" (more +:+ filename) +:+ LF))).
    2:{ unfold header, row, TAB, LF.
        repeat (rewrite str_app_assoc || rewrite str_app_cons || rewrite str_app_nil_l).
        reflexivity. }
    rewrite lstrip_chars_pad by done. rewrite lstrip_chars_keep by done.
    rewrite <- !str_app_cons.
    rewrite rstrip_chars_after_word by done.
    rewrite (rstrip_chars_app _ (String "009" (more +:+ filename)) LF).
    change (rstrip_chars py_isspace LF) with "". fold tail.
    repeat (rewrite str_app_assoc || rewrite str_app_cons || rewrite str_app_nil_l).
    reflexivity. }
  assert (all_chars (fun c => negb (bool_decide (c = "010"%char))) tail = true) as Htail.
  { apply rstrip_chars_all. by rewrite all_chars_cons, all_chars_app, Hmore, Hfn. }
  rewrite (split_on_line "010" (String "t" header)) by done.
  rewrite split_on_none.
  2:{ unfold row. rewrite !all_chars_app, all_chars_cons, !all_chars_app, all_chars_cons.
      by rewrite !spaces_line, !Hlf, Htail. }
  simpl length. simpl lookup. cbv iota beta.
  assert (exists rest, py_split (row +:+ str_int b +:+ tail) =
                         str_int t :: str_int d :: str_int b :: rest) as [rest ->].
  { unfold row.
    repeat (rewrite str_app_assoc || rewrite str_app_cons || rewrite str_app_nil_l).
    rewrite py_split_pad by apply spaces_isspace.
    rewrite (py_split_word (str_int t)) by done.
    rewrite py_split_pad by apply spaces_isspace.
    rewrite (py_split_word (str_int d)) by done.
    rewrite py_split_pad by apply spaces_isspace.
    destruct (rstrip_chars_head py_isspace "009" (more +:+ filename)) as [Hnil|[u Hu]];
      fold tail in Hnil || fold tail in Hu.
    - rewrite Hnil, str_app_nil_r, py_split_one by done. by eexists.
    - rewrite Hu, (py_split_word (str_int b)) by done. by eexists. }
  change ((str_int t :: ?l) !! 0%nat) with (Some (str_int t)).
  change ((str_int t :: str_int d :: ?l) !! 1%nat) with (Some (str_int d)).
  change ((str_int t :: str_int d :: str_int b :: ?l) !! 2%nat) with (Some (str_int b)).
  cbv iota beta. by rewrite !int10_str_int.
Qed.

(** X21. When the size tool prints its table (the header line, then
    a row with the text, data and bss sizes, unsigned 64-bit numbers
    in decimal, each right-aligned in a column of seven and followed
    by a tab, then whatever else stands on the row, the file name
    last), [get_elf_size] returns exactly these three numbers, their
    sum text + data as the flash usage and data + bss as the RAM
    usage. This holds when [arm-none-eabi-size] prints the table, and
    also when that command is missing or fails and plain [size] prints
    it. *)
Theorem get_elf_size_report (fs : gmap string string) (run : list string -> AnalyzeFlash.run_outcome)
    (elf_path : string) (t d b : Z) (more filename : string) :
  is_Some (fs !! elf_path) ->
  0 <= t < 2 ^ 64 -> 0 <= d < 2 ^ 64 -> 0 <= b < 2 ^ 64 ->
  all_chars (fun c => negb (bool_decide (c = "010"%char))) more = true ->
  all_chars (fun c => negb (bool_decide (c = "010"%char))) filename = true ->
  run ["arm-none-eabi-size"; elf_path] =
    AnalyzeFlash.Completed (size_report t d b more filename) \/
  (run ["arm-none-eabi-size"; elf_path] = AnalyzeFlash.CommandFailed /\
   run ["size"; elf_path] = AnalyzeFlash.Completed (size_report t d b more filename)) ->
  AnalyzeFlash.get_elf_size fs run elf_path =
    Some (AnalyzeFlash.ElfSize t d b (t + d) (d + b)).
Proof.
  intros [content Hfile] _ _ _ Hmore Hfn Hrun.
  pose proof (parse_size_report t d b more filename Hmore Hfn) as Hparse.
  unfold AnalyzeFlash.get_elf_size. rewrite Hfile.
  destruct Hrun as [-> | [-> ->]]; exact Hparse.
Qed.

(** The theorem at the table of a small image, written out, for the
    fallback tool. *)
Example get_elf_size_report_witness :
  size_report 12345 100 2000 ("  14445" +:+ TAB +:+ "   386d" +:+ TAB) "zephyr.elf" =
    "   text" +:+ TAB +:+ "   data" +:+ TAB +:+ "    bss" +:+ TAB +:+ "    dec" +:+ TAB
      +:+ "    hex" +:+ TAB +:+ "filename" +:+ LF +:+
    "  12345" +:+ TAB +:+ "    100" +:+ TAB +:+ "   2000" +:+ TAB +:+ "  14445" +:+ TAB
      +:+ "   386d" +:+ TAB +:+ "zephyr.elf" +:+ LF /\
  AnalyzeFlash.get_elf_size (<["zephyr.elf" := "ELF"]> ∅)
    (fun cmd => if decide (cmd = ["size"; "zephyr.elf"])
                then AnalyzeFlash.Completed
                       (size_report 12345 100 2000
                          ("  14445" +:+ TAB +:+ "   386d" +:+ TAB) "zephyr.elf")
                else AnalyzeFlash.CommandFailed)
    "zephyr.elf" =
  Some (AnalyzeFlash.ElfSize 12345 100 2000 (12345 + 100) (100 + 2000)).
Proof.
  split; [reflexivity|].
  apply (get_elf_size_report _ _ _ 12345 100 2000
           ("  14445" +:+ TAB +:+ "   386d" +:+ TAB) "zephyr.elf").
  - rewrite lookup_insert_eq. by eexists.
  - lia.
  - lia.
  - lia.
  - reflexivity.
  - reflexivity.
  - right. split; reflexivity.
Defined.

(** X22. The row is looked for on the second line of the stripped
    output only: an output that is a single line once stripped (a row
    without a header, or a row after a blank first line, which
    stripping removes) gives no result, whatever numbers it holds. So
    does a missing file, and a first command that fails in any other
    way than by being absent or returning an error status, even if
    plain [size] would have worked. *)
Theorem get_elf_size_unavailable (fs : gmap string string)
    (run : list string -> AnalyzeFlash.run_outcome) (elf_path : string) :
  (fs !! elf_path = None -> AnalyzeFlash.get_elf_size fs run elf_path = None) /\
  (run ["arm-none-eabi-size"; elf_path] = AnalyzeFlash.OtherFailure ->
   AnalyzeFlash.get_elf_size fs run elf_path = None) /\
  (forall stdout,
      run ["arm-none-eabi-size"; elf_path] = AnalyzeFlash.Completed stdout ->
      all_chars (fun c => negb (bool_decide (c = "010"%char))) (strip stdout) = true ->
      AnalyzeFlash.get_elf_size fs run elf_path = None).
Proof.
  unfold AnalyzeFlash.get_elf_size. split; [by intros ->|]. split.
  - intros ->. by destruct (fs !! elf_path).
  - intros stdout -> Hone. destruct (fs !! elf_path); [|done].
    unfold AnalyzeFlash.parse_size_output. by rewrite split_on_none.
Qed.

(** The theorem at a row that follows a blank line. *)
Example get_elf_size_unavailable_witness :
  AnalyzeFlash.get_elf_size (<["zephyr.elf" := "ELF"]> ∅)
    (fun _ => AnalyzeFlash.Completed (LF +:+ "  12345" +:+ TAB +:+ "100" +:+ TAB +:+ "2000" +:+ LF))
    "zephyr.elf" = None.
Proof.
  destruct (get_elf_size_unavailable (<["zephyr.elf" := "ELF"]> ∅)
              (fun _ => AnalyzeFlash.Completed
                          (LF +:+ "  12345" +:+ TAB +:+ "100" +:+ TAB +:+ "2000" +:+ LF))
              "zephyr.elf") as (_ & _ & Hone).
  apply (Hone _ eq_refl). reflexivity.
Defined.

(** ** Bounds *)

Lemma hex_value_bound (c : ascii) :
  is_hex c = true -> 0 <= default 0 (hex_value c) <= 15.
Proof.
  destruct c as [[] [] [] [] [] [] [] []]; vm_compute; intros; try discriminate;
    split; discriminate.
Qed.

Lemma ihex_data_bytes_bound (r : ihex_record) :
  ihex_wf r -> 0 <= ihex_data_bytes r <= 255.
Proof.
  intros (Hc1 & Hc2 & _). unfold ihex_data_bytes, hex_pair.
  pose proof (hex_value_bound _ Hc1). pose proof (hex_value_bound _ Hc2).
  destruct (_ =? 0); lia.
Qed.

(** X23. For a file of well-formed Intel HEX records the size that
    [get_hex_size] returns is never negative and never more than 255
    bytes per record. *)
Theorem get_hex_size_bound (fs : gmap string string) (hex_path : string)
    (records : list ihex_record) :
  Forall ihex_wf records ->
  fs !! hex_path = Some (join (map ihex_line records)) ->
  exists total,
    AnalyzeFlash.get_hex_size fs hex_path = Some total /\
    0 <= total <= 255 * Z.of_nat (length records).
Proof.
  intros Hwf Hfile. unfold AnalyzeFlash.get_hex_size.
  rewrite Hfile, readlines_ihex by done.
  rewrite hex_size_loop_records by done.
  eexists. split; [reflexivity|]. clear Hfile.
  induction Hwf as [|r rs Hr _ IH]; simpl; [lia|].
  pose proof (ihex_data_bytes_bound r Hr). lia.
Qed.

Example get_hex_size_bound_witness :
  exists total,
    AnalyzeFlash.get_hex_size
      (<["zephyr.hex" :=
           join (map ihex_line
                   [ IhexRecord ("F", "F")%char "0100" ("0", "0")%char "00" ])]> ∅)
      "zephyr.hex" = Some total /\
    0 <= total <= 255 * Z.of_nat (length
      [ IhexRecord ("F", "F")%char "0100" ("0", "0")%char "00" ]).
Proof.
  apply get_hex_size_bound.
  - repeat constructor.
  - apply lookup_insert_eq.
Defined.

(** X24. When [calculate_partitions] succeeds on nonnegative sizes,
    every record of the layout lies within the flash: its start is not
    negative, its end is not before its start and not beyond the
    capacity. *)
Theorem calculate_partitions_within_flash (capacity : Z)
    (requests : list (string * Z)) (records : list partition_info) :
  Forall (fun p => 0 <= p.2) requests ->
  calculate_partitions capacity requests = Ok records ->
  Forall (fun r => 0 <= start r <= end_ r /\ end_ r <= capacity) records.
Proof.
  unfold calculate_partitions.
  intros Hpos [Hall ->]%calculate_partitions_loop_ok. simpl app.
  apply Forall_lookup. intros i r Hi.
  assert (i < length requests)%nat as Hlen.
  { rewrite <- (tile_length requests 0). by eapply lookup_lt_Some. }
  destruct (lookup_lt_is_Some_2 requests i Hlen) as [[n s] Hreq].
  rewrite (tile_lookup _ 0 _ _ _ Hreq) in Hi. injection Hi as <-. simpl.
  assert (0 <= s) as Hs.
  { by apply (Forall_lookup_1 _ _ _ _ Hpos Hreq). }
  assert (0 <= sum_sizes (take i requests)) as Hbefore.
  { apply sum_sizes_nonneg. by apply Forall_take. }
  specialize (Hall (S i) ltac:(lia)).
  rewrite (take_S_r _ _ _ Hreq), sum_sizes_app in Hall.
  unfold sum_sizes at 2 in Hall. simpl in Hall. lia.
Qed.

Example calculate_partitions_within_flash_witness :
  Forall (fun r => 0 <= start r <= end_ r /\ end_ r <= 1024)
    [PartitionInfo "a" 0 600 600; PartitionInfo "b" 600 1000 400].
Proof.
  apply (calculate_partitions_within_flash 1024 [("a", 600); ("b", 400)]).
  - repeat constructor; simpl; lia.
  - reflexivity.
Defined.
